(** * Virtual Drawing Board: the gesture-to-stroke state machine

    A shallow embedding of the two variants of the drawing board,
    [src/VirtualDrawingBoard/app.py] (pinch gesture) and [src/app.py]
    (index finger up), together with the settings they read from
    [src/settings.py].  The methods of [VideoThread] are actions of a small
    monad that threads the object's fields, collects the calls made to OpenCV
    and to the Qt signals, and propagates Python exceptions. *)

From Stdlib Require Import ZArith String.
From Stdlib Require Import Floats.PrimFloat Floats.SpecFloat Floats.FloatOps Floats.FloatAxioms.
From Stdlib Require Import Numbers.Cyclic.Int63.Uint63.
From stdpp Require Import base list.

Local Open Scope Z_scope.

(** ** Python values *)

Inductive Exn : Type :=
| IndexError
| AttributeError
| ValueError
| OverflowError.

(** [l[i]] on a Python list: a negative index counts from the end. *)
Definition getitem {A : Type} (l : list A) (i : Z) : option A :=
  let n := Z.of_nat (length l) in
  let j := if i <? 0 then i + n else i in
  if (j <? 0) || (n <=? j) then None else l !! Z.to_nat j.

(** [l[:-k]] for a positive [k]: the stop index [len(l) - k] is clamped
    at zero. *)
Definition slice_until_neg {A : Type} (l : list A) (k : nat) : list A :=
  take (length l - k) l.

(** [bool(l)] on a list. *)
Definition truthy {A : Type} (l : list A) : bool :=
  match l with
  | [] => false
  | _ :: _ => true
  end.

(** [float(n)] for an int [n] with [|n| < 2^63]. *)
Definition float_of_int (n : Z) : float :=
  if n <? 0 then PrimFloat.opp (PrimFloat.of_uint63 (Uint63.of_Z (- n)))
  else PrimFloat.of_uint63 (Uint63.of_Z n).

(** [int(f)]: truncation towards zero; NaN and the infinities raise. *)
Definition int_of_float (f : float) : Exn + Z :=
  match Prim2SF f with
  | S754_zero _ => inr 0
  | S754_infinity _ => inl OverflowError
  | S754_nan => inl ValueError
  | S754_finite sgn m e =>
      let v := if 0 <=? e then Z.pos m * 2 ^ e else Z.pos m / 2 ^ (- e) in
      inr (if sgn then - v else v)
  end.

(** ** Data *)

Definition Point : Type := Z * Z.
Definition Color : Type := Z * Z * Z.

(** [tuple(reversed(color))] *)
Definition reversed (c : Color) : Color :=
  let '(r, g, b) := c in (b, g, r).

(** An entry [[(x, y), settings.line_thickness, settings.line_color]] of a
    line. *)
Record StrokePoint : Type := mkStrokePoint {
  position : Point;
  thickness : Z;
  color : Color
}.

Abbreviation Stroke := (list StrokePoint).

(** [SettingsWindow]: the two fields the drawing code reads. *)
Record Settings : Type := mkSettings {
  line_thickness : Z;
  line_color : Color
}.

Definition initial_settings : Settings :=
  {| line_thickness := 10; line_color := (255, 0, 0) |}.

Module Landmark.
Record t : Type := mk { x : float; y : float }.
End Landmark.

(** A frame as [video.read()] delivers it, with what
    [hands.process(image).multi_hand_landmarks] finds in it: one landmark
    list per detected hand. *)
Record Image : Type := mkImage {
  image_height : Z;
  image_width : Z;
  multi_hand_landmarks : list (list Landmark.t)
}.

(** [success, image = self.video.read()]; OpenCV hands out [None] for the
    image of a failed read. *)
Record ReadResult : Type := mkRead {
  success : bool;
  image : option Image
}.

(** Calls that leave the thread: OpenCV drawing, the Qt signals and the
    release of the camera. *)
Inductive Event : Type :=
| CvLine (old_position new_position : Point) (c : Color) (t : Z)
| CvCircle (center : Point) (radius : Z) (c : Color) (t : Z)
| DataSignal (height width : Z)
| ErrorSignal (message : string)
| VideoRelease.

(** The fields of [VideoThread] the loop and the commands work on, and the
    global [settings] object. *)
Record State : Type := mkState {
  lines : list Stroke;
  draw : bool;
  run_video_thread : bool;
  settings : Settings
}.

Definition initial_state : State :=
  {| lines := [[]]; draw := true; run_video_thread := true;
     settings := initial_settings |}.

Definition set_lines (ls : list Stroke) (s : State) : State :=
  {| lines := ls; draw := draw s; run_video_thread := run_video_thread s;
     settings := settings s |}.

Definition set_draw (d : bool) (s : State) : State :=
  {| lines := lines s; draw := d; run_video_thread := run_video_thread s;
     settings := settings s |}.


Definition set_settings (st : Settings) (s : State) : State :=
  {| lines := lines s; draw := draw s; run_video_thread := run_video_thread s;
     settings := st |}.

(** ** The monad of methods *)

Inductive Outcome (A : Type) : Type :=
| Ok (out : list Event) (a : A) (s : State)
| Raise (out : list Event) (e : Exn) (s : State).

Arguments Ok {A} out a s.
Arguments Raise {A} out e s.

Definition M (A : Type) : Type := State -> Outcome A.

Definition ret {A : Type} (a : A) : M A := fun s => Ok [] a s.

Definition bind {A B : Type} (m : M A) (k : A -> M B) : M B :=
  fun s =>
    match m s with
    | Ok o1 a s1 =>
        match k a s1 with
        | Ok o2 b s2 => Ok (o1 ++ o2) b s2
        | Raise o2 e s2 => Raise (o1 ++ o2) e s2
        end
    | Raise o1 e s1 => Raise o1 e s1
    end.

Declare Scope py_scope.
Delimit Scope py_scope with py.
Notation "'let!' x ':=' m 'in' k" := (bind m (fun x => k))
  (at level 10, x pattern, m at level 100, k at level 200) : py_scope.
Notation "m ';;;' k" := (bind m (fun _ => k))
  (at level 100, k at level 200, right associativity) : py_scope.

Definition raise {A : Type} (e : Exn) : M A := fun s => Raise [] e s.
Definition get : M State := fun s => Ok [] s s.
Definition put (s' : State) : M unit := fun _ => Ok [] tt s'.
Definition emit (ev : Event) : M unit := fun s => Ok [ev] tt s.

Definition lift_option {A : Type} (e : Exn) (o : option A) : M A :=
  match o with
  | Some a => ret a
  | None => raise e
  end.

Definition lift_sum {A : Type} (r : Exn + A) : M A :=
  match r with
  | inr a => ret a
  | inl e => raise e
  end.

(** [for a in l: body(a)] *)
Fixpoint for_each {A : Type} (l : list A) (body : A -> M unit) : M unit :=
  match l with
  | [] => ret tt
  | a :: l' => bind (body a) (fun _ => for_each l' body)
  end.

Definition final {A : Type} (o : Outcome A) : State :=
  match o with
  | Ok _ _ s => s
  | Raise _ _ s => s
  end.

Definition output {A : Type} (o : Outcome A) : list Event :=
  match o with
  | Ok out _ _ => out
  | Raise out _ _ => out
  end.

(** ** The ledger of lines: methods both variants share verbatim *)

Module Ledger.
Local Open Scope py_scope.

(** [self.lines[len(self.lines) - 1]] *)
Definition current_line : M Stroke :=
  let! s := get in
  lift_option IndexError
    (getitem (lines s) (Z.of_nat (length (lines s)) - 1)).

(** [self.lines[len(self.lines) - 1].append([(x, y), thickness, color])] *)
Definition add_line (x y : Z) : M unit :=
  let! _ := current_line in
  let! s := get in
  let entry := {| position := (x, y);
                  thickness := line_thickness (settings s);
                  color := line_color (settings s) |} in
  put (set_lines
         (alter (fun line => line ++ [entry]) (length (lines s) - 1)%nat
            (lines s)) s).

Definition check_for_new_line : M unit :=
  let! line := current_line in
  if truthy line then
    let! s := get in put (set_lines (lines s ++ [[]]) s)
  else ret tt.

Definition clear : M unit :=
  let! s := get in put (set_lines [[]] s).

Definition undo : M unit :=
  let! line := current_line in
  let delete_number := if truthy line then 1%nat else 2%nat in
  let! s := get in
  put (set_lines (slice_until_neg (lines s) delete_number) s);;;
  let! s := get in
  if truthy (lines s) then check_for_new_line else clear.

(** [toggle_draw], without the two widget labels it refreshes. *)
Definition toggle_draw : M unit :=
  let! s := get in
  put (set_draw (negb (draw s)) s);;;
  check_for_new_line.

(** The body of the inner loop of [draw_lines]. *)
Definition draw_segment (line : Stroke) (i : nat) : M unit :=
  if (i =? 0)%nat then ret tt
  else
    let! previous := lift_option IndexError (getitem line (Z.of_nat i - 1)) in
    let! current := lift_option IndexError (getitem line (Z.of_nat i)) in
    emit (CvLine (position previous) (position current)
            (reversed (color previous)) (thickness previous)).

Definition draw_lines : M unit :=
  let! s := get in
  for_each (lines s)
    (fun line => for_each (seq 0 (length line)) (draw_segment line)).


(** [SettingsWindow.change_line_thickness] and [change_line_color], once
    the colour dialog has returned a valid colour. *)
Definition change_line_thickness (value : Z) : M unit :=
  let! s := get in
  put (set_settings {| line_thickness := value;
                       line_color := line_color (settings s) |} s).

Definition change_line_color (c : Color) : M unit :=
  let! s := get in
  put (set_settings {| line_thickness := line_thickness (settings s);
                       line_color := c |} s).
End Ledger.

Inductive LoopControl : Type :=
| Continue
| Break.

(** How a run over a finite prefix of the camera stream ends: the loop was
    left, or it waits for the next frame. *)
Inductive LoopStatus : Type :=
| Stopped
| Awaiting.

(** ** [src/VirtualDrawingBoard/app.py]: drawing while pinching *)

Module PinchBoard.
Import Ledger.
Local Open Scope py_scope.

(** [mp.solutions.hands.HandLandmark.INDEX_FINGER_TIP] and [THUMB_TIP] *)
Definition index_finger_tip : Z := 8.
Definition thumb_tip : Z := 4.

#[warnings="-inexact-float"]
Definition pinch_tolerance : float := 0.05%float.
Definition indicator_color : Color := (150, 150, 150).

Definition error_message : string :=
  "Unable to receive webcam input."
  ++ String (Ascii.ascii_of_nat 10) "Check if the webcam is connected properly.".

(** The test of [check_if_pinched]:
    [abs(ift.x - tt.x) < tolerance and abs(ift.y - tt.y) < tolerance]. *)
Definition within_tolerance (ift tt_ : Landmark.t) : bool :=
  PrimFloat.ltb
    (PrimFloat.abs (PrimFloat.sub (Landmark.x ift) (Landmark.x tt_)))
    pinch_tolerance
  && PrimFloat.ltb
       (PrimFloat.abs (PrimFloat.sub (Landmark.y ift) (Landmark.y tt_)))
       pinch_tolerance.

Definition check_if_pinched (landmarks : list Landmark.t) : M bool :=
  let! ift := lift_option IndexError (getitem landmarks index_finger_tip) in
  let! tt_ := lift_option IndexError (getitem landmarks thumb_tip) in
  if within_tolerance ift tt_ then ret true
  else check_for_new_line;;; ret false.

Definition get_coordinates (landmarks : list Landmark.t)
    (width height : Z) : M Point :=
  let! ift := lift_option IndexError (getitem landmarks index_finger_tip) in
  let! tt_ := lift_option IndexError (getitem landmarks thumb_tip) in
  let center_x :=
    PrimFloat.div (PrimFloat.add (Landmark.x ift) (Landmark.x tt_))
      (float_of_int 2) in
  let center_y :=
    PrimFloat.div (PrimFloat.add (Landmark.y ift) (Landmark.y tt_))
      (float_of_int 2) in
  let! x := lift_sum (int_of_float (PrimFloat.mul center_x (float_of_int width))) in
  let! y := lift_sum (int_of_float (PrimFloat.mul center_y (float_of_int height))) in
  ret (x, y).

(** [int(settings.line_thickness / 2)] truncates towards zero. *)
Definition draw_indicator (x y : Z) : M unit :=
  let! s := get in
  emit (CvCircle (x, y) (Z.quot (line_thickness (settings s)) 2)
          (reversed indicator_color) (-1)).

Definition emit_data_signal (height width : Z) : M unit :=
  emit (DataSignal height width).

(** One turn of the [while] loop of [run]. *)
Definition run_iteration (r : ReadResult) : M LoopControl :=
  if negb (success r) then
    emit (ErrorSignal error_message);;; ret Break
  else
    let! img := lift_option AttributeError (image r) in
    let results := multi_hand_landmarks img in
    let! gesture :=
      match results with
      | landmarks :: _ =>
          let! p := get_coordinates landmarks (image_width img) (image_height img) in
          let! is_pinched := check_if_pinched landmarks in
          let! s := get in
          (if draw s && is_pinched then add_line (fst p) (snd p) else ret tt);;;
          ret (Some (p, is_pinched))
      | [] => check_for_new_line;;; ret None
      end in
    draw_lines;;;
    let! s := get in
    match gesture with
    | Some (p, is_pinched) =>
        if draw s && negb is_pinched then draw_indicator (fst p) (snd p)
        else ret tt
    | None => ret tt
    end;;;
    emit_data_signal (image_height img) (image_width img);;;
    ret Continue.

Fixpoint run_loop (reads : list ReadResult) : M LoopStatus :=
  match reads with
  | [] => ret Awaiting
  | r :: reads' =>
      let! s := get in
      if run_video_thread s then
        let! c := run_iteration r in
        match c with
        | Break => ret Stopped
        | Continue => run_loop reads'
        end
      else ret Stopped
  end.

(** [run]: the camera is released once the loop has been left. *)
Definition run (reads : list ReadResult) : M LoopStatus :=
  let! status := run_loop reads in
  match status with
  | Stopped => emit VideoRelease
  | Awaiting => ret tt
  end;;;
  ret status.
End PinchBoard.

(** ** [src/app.py]: drawing with the index finger up *)

Module FingerBoard.
Import Ledger.
Local Open Scope py_scope.

Definition index_finger_tip : Z := 8.

Fixpoint finger_up_loop (landmarks rest : list Landmark.t) : M bool :=
  match rest with
  | [] => ret true
  | landmark :: rest' =>
      let! tip := lift_option IndexError (getitem landmarks index_finger_tip) in
      if PrimFloat.leb (Landmark.y tip) (Landmark.y landmark)
      then finger_up_loop landmarks rest'
      else check_for_new_line;;; ret false
  end.

Definition check_if_index_finger_is_up (landmarks : list Landmark.t) : M bool :=
  finger_up_loop landmarks landmarks.

Definition get_coordinates (landmarks : list Landmark.t)
    (width height : Z) : M Point :=
  let! tip := lift_option IndexError (getitem landmarks index_finger_tip) in
  let! x := lift_sum (int_of_float
              (PrimFloat.mul (Landmark.x tip) (float_of_int width))) in
  let! tip := lift_option IndexError (getitem landmarks index_finger_tip) in
  let! y := lift_sum (int_of_float
              (PrimFloat.mul (Landmark.y tip) (float_of_int height))) in
  ret (x, y).

Definition draw_circle (x y : Z) : M unit :=
  let! s := get in
  emit (CvCircle (x, y) 50 (reversed (line_color (settings s))) 10).

Definition emit_signal (height width : Z) : M unit :=
  emit (DataSignal height width).

(** One turn of the [while] loop of [run]. *)
Definition run_iteration (r : ReadResult) : M unit :=
  let! img := lift_option AttributeError (image r) in
  let result := multi_hand_landmarks img in
  let! gesture :=
    match result with
    | landmarks :: _ =>
        let! is_index_finger_up := check_if_index_finger_is_up landmarks in
        if is_index_finger_up then
          let! p := get_coordinates landmarks (image_width img) (image_height img) in
          let! s := get in
          (if draw s then add_line (fst p) (snd p) else ret tt);;;
          ret (Some p)
        else ret None
    | [] => check_for_new_line;;; ret None
    end in
  draw_lines;;;
  match gesture with
  | Some p => draw_circle (fst p) (snd p)
  | None => ret tt
  end;;;
  if success r then emit_signal (image_height img) (image_width img)
  else ret tt.

Fixpoint run_loop (reads : list ReadResult) : M LoopStatus :=
  match reads with
  | [] => ret Awaiting
  | r :: reads' =>
      let! s := get in
      if run_video_thread s then run_iteration r;;; run_loop reads'
      else ret Stopped
  end.

Definition run (reads : list ReadResult) : M LoopStatus :=
  let! status := run_loop reads in
  match status with
  | Stopped => emit VideoRelease
  | Awaiting => ret tt
  end;;;
  ret status.
End FingerBoard.

(** ** Vocabulary of the ledger *)

(** The ledger holds at least one line, and only the last one may be empty. *)
Definition ledger_invariant (ls : list Stroke) : Prop :=
  ls <> [] /\
  forall (i : nat) (line : Stroke),
    ls !! i = Some line -> (S i < length ls)%nat -> line <> [].

(** The number of lines that hold points. *)
Definition completed (ls : list Stroke) : nat :=
  length (List.filter truthy ls).

(** The entry [add_line] builds from the settings of the moment. *)
Definition entry_of (s : State) (x y : Z) : StrokePoint :=
  {| position := (x, y);
     thickness := line_thickness (settings s);
     color := line_color (settings s) |}.

(** Commands on the ledger, as the frame loop and the buttons issue them. *)
Inductive LedgerOp : Type :=
| OpAddLine (x y : Z)
| OpCheckForNewLine
| OpUndo
| OpClear.

Definition exec_op (op : LedgerOp) : M unit :=
  match op with
  | OpAddLine x y => Ledger.add_line x y
  | OpCheckForNewLine => Ledger.check_for_new_line
  | OpUndo => Ledger.undo
  | OpClear => Ledger.clear
  end.

Definition exec_ops (ops : list LedgerOp) : M unit :=
  for_each ops exec_op.

(** [undo] applied [n] times. *)
Fixpoint undo_times (n : nat) : M unit :=
  match n with
  | O => ret tt
  | S n' => bind Ledger.undo (fun _ => undo_times n')
  end.


(** ** Vocabulary of the frame loop *)

(** The lines [undo] keeps of [front ++ [cur]], before it restores the
    open line. *)
Definition kept_by_undo (front : list Stroke) (cur : Stroke) : list Stroke :=
  if truthy cur then front else take (length front - 1) front.


(** The segments [draw_lines] hands to [cv2.line] for one line: one per
    pair of neighbouring entries, styled as the earlier entry. *)
Fixpoint segments_of (line : Stroke) : list Event :=
  match line with
  | previous :: (current :: _) as rest =>
      CvLine (position previous) (position current)
        (reversed (color previous)) (thickness previous)
      :: segments_of rest
  | _ => []
  end.

Definition is_circle (ev : Event) : bool :=
  match ev with
  | CvCircle _ _ _ _ => true
  | _ => false
  end.

Definition is_error_signal (ev : Event) : bool :=
  match ev with
  | ErrorSignal _ => true
  | _ => false
  end.

(** Whether the calls of one frame include the indicator. *)
Definition indicator_drawn (out : list Event) : bool := existsb is_circle out.

Definition error_signalled (out : list Event) : bool :=
  existsb is_error_signal out.

(** The classification of a frame by the pinch variant: a hand is present
    and its two fingertips are within the tolerance. *)
Definition pinch_active (r : ReadResult) : bool :=
  match image r with
  | Some img =>
      match multi_hand_landmarks img with
      | landmarks :: _ =>
          match getitem landmarks PinchBoard.index_finger_tip,
                getitem landmarks PinchBoard.thumb_tip with
          | Some ift, Some tt_ => PinchBoard.within_tolerance ift tt_
          | _, _ => false
          end
      | [] => false
      end
  | None => false
  end.

(** The commands of the buttons and of the settings window. *)
Inductive Command : Type :=
| CmdToggleDraw
| CmdUndo
| CmdClear
| CmdLineThickness (value : Z)
| CmdLineColor (c : Color).

Definition exec_command (c : Command) : M unit :=
  match c with
  | CmdToggleDraw => Ledger.toggle_draw
  | CmdUndo => Ledger.undo
  | CmdClear => Ledger.clear
  | CmdLineThickness v => Ledger.change_line_thickness v
  | CmdLineColor c => Ledger.change_line_color c
  end.

(** The states a session passes through: frames and commands, one at a
    time, from the state [__init__] sets up. *)
Inductive reachable {A : Type} (iteration : ReadResult -> M A) : State -> Prop :=
| reachable_init : reachable iteration initial_state
| reachable_frame s r :
    reachable iteration s -> reachable iteration (final (iteration r s))
| reachable_command s c :
    reachable iteration s -> reachable iteration (final (exec_command c s)).

(** A hand of 21 landmarks with the given index fingertip and thumb tip;
    the other landmarks lie lower in the picture. *)
Definition sample_hand (ift tt_ : Landmark.t) : list Landmark.t :=
  let other := Landmark.mk 0.5 0.75 in
  [other; other; other; other; tt_; other; other; other; ift]
  ++ repeat other 12.

Definition sample_frame (hands : list (list Landmark.t)) : ReadResult :=
  {| success := true;
     image := Some {| image_height := 480; image_width := 640;
                      multi_hand_landmarks := hands |} |}.

(** While drawing is switched off the last line of the ledger is empty. *)
Definition paused_ledger_open (s : State) : Prop :=
  lines s <> [] /\ (draw s = false -> last (lines s) = Some []).

(** The lines in front of the open end of the ledger are [closed]. *)
Definition extends_closed (closed : list Stroke) (s : State) : Prop :=
  exists rest, rest <> [] /\ lines s = closed ++ rest.

(** *** Three ways to look at a method *)

(** The method leaves the fields as they are, whatever its outcome. *)
Definition readonly {A : Type} (m : M A) : Prop :=
  forall s, final (m s) = s.

(** The method makes no outside call. *)
Definition silent {A : Type} (m : M A) : Prop :=
  forall s, output (m s) = [].

(** The method keeps [P], whatever its outcome. *)
Definition preserves {A : Type} (P : State -> Prop) (m : M A) : Prop :=
  forall s, P s -> P (final (m s)).

(** Every outside call of the method satisfies [Q]. *)
Definition emits {A : Type} (Q : Event -> Prop) (m : M A) : Prop :=
  forall s, Forall Q (output (m s)).

Section Basics.
Context {A : Type}.
Implicit Types l : list A.

Lemma getitem_nat l (i : nat) : getitem l (Z.of_nat i) = l !! i.
Proof.
  unfold getitem. cbv zeta.
  destruct (Z.ltb_spec (Z.of_nat i) 0) as [?|_]; [lia|].
  destruct (Z.ltb_spec (Z.of_nat i) 0) as [?|_]; [lia|]. cbn [orb].
  destruct (Z.leb_spec (Z.of_nat (length l)) (Z.of_nat i)) as [Hle|_].
  - symmetry. apply lookup_ge_None. lia.
  - now rewrite Nat2Z.id.
Qed.

Lemma getitem_last l : getitem l (Z.of_nat (length l) - 1) = last l.
Proof.
  destruct l as [|a l'] using rev_ind; [reflexivity|].
  rewrite last_snoc, length_app, Nat.add_1_r.
  replace (Z.of_nat (S (length l')) - 1) with (Z.of_nat (length l')) by lia.
  rewrite getitem_nat. now apply list_lookup_middle.
Qed.

Lemma snoc_inv l : l <> [] -> exists front cur, l = front ++ [cur].
Proof.
  destruct l as [|a l'] using rev_ind; [congruence|]. eauto.
Qed.

Lemma truthy_true l : truthy l = true <-> l <> [].
Proof. destruct l; cbn; split; congruence. Qed.
End Basics.

Lemma set_lines_id s : set_lines (lines s) s = s.
Proof. destruct s; reflexivity. Qed.

Lemma ledger_invariant_snoc ls :
  ledger_invariant ls <->
  exists closed cur, ls = closed ++ [cur] /\ Forall (fun l => l <> []) closed.
Proof.
  split.
  - intros [Hne Hclosed]. destruct (snoc_inv ls Hne) as (closed & cur & ->).
    exists closed, cur. split; [reflexivity|].
    apply Forall_lookup. intros i line Hi. apply (Hclosed i).
    + rewrite lookup_app_l; [exact Hi|]. eapply lookup_lt_Some, Hi.
    + rewrite length_app. cbn. apply lookup_lt_Some in Hi. lia.
  - intros (closed & cur & -> & Hall). split.
    + destruct closed; discriminate.
    + intros i line Hi Hlt. rewrite length_app in Hlt. cbn in Hlt.
      rewrite lookup_app_l in Hi by lia.
      eapply Forall_lookup in Hall; eauto.
Qed.

(** *** What each method does to a ledger [front ++ [cur]] *)

Lemma current_line_snoc front cur s :
  lines s = front ++ [cur] -> Ledger.current_line s = Ok [] cur s.
Proof.
  intros H. unfold Ledger.current_line, bind, get.
  rewrite getitem_last, H, last_snoc. reflexivity.
Qed.

Lemma current_line_nil s :
  lines s = [] -> Ledger.current_line s = Raise [] IndexError s.
Proof.
  intros H. unfold Ledger.current_line, bind, get. now rewrite H.
Qed.

Lemma add_line_snoc front cur x y s :
  lines s = front ++ [cur] ->
  Ledger.add_line x y s =
  Ok [] tt (set_lines (front ++ [cur ++ [entry_of s x y]]) s).
Proof.
  intros H. unfold Ledger.add_line, bind.
  rewrite (current_line_snoc front cur s H). cbn.
  rewrite H, length_app. cbn [length].
  replace (length front + 1 - 1)%nat with (length front + 0)%nat by lia.
  now rewrite alter_app_r.
Qed.

Lemma check_for_new_line_snoc front cur s :
  lines s = front ++ [cur] ->
  Ledger.check_for_new_line s =
  Ok [] tt (set_lines (if truthy cur then front ++ [cur; []] else lines s) s).
Proof.
  intros H. unfold Ledger.check_for_new_line, bind.
  rewrite (current_line_snoc front cur s H).
  destruct (truthy cur); cbn.
  - now rewrite H, <- app_assoc.
  - now rewrite set_lines_id.
Qed.

Lemma clear_spec s : Ledger.clear s = Ok [] tt (set_lines [[]] s).
Proof. reflexivity. Qed.

Lemma undo_snoc front cur s :
  lines s = front ++ [cur] ->
  Ledger.undo s =
  Ok [] tt
    (set_lines
       (match last (kept_by_undo front cur) with
        | None => [[]]
        | Some l => if truthy l then kept_by_undo front cur ++ [[]]
                    else kept_by_undo front cur
        end) s).
Proof.
  intros H. unfold Ledger.undo, bind at 1.
  rewrite (current_line_snoc front cur s H).
  assert (Hslice : slice_until_neg (lines s) (if truthy cur then 1 else 2)%nat
                   = kept_by_undo front cur).
  { unfold slice_until_neg, kept_by_undo. rewrite H, length_app. cbn [length].
    destruct (truthy cur).
    - replace (length front + 1 - 1)%nat with (length front) by lia.
      apply take_app_length.
    - replace (length front + 1 - 2)%nat with (length front - 1)%nat by lia.
      apply take_app_le. lia. }
  unfold bind, get, put. rewrite Hslice. cbn [lines set_lines].
  destruct (last (kept_by_undo front cur)) as [k|] eqn:Hlast.
  - apply last_Some in Hlast as [ks Hk]. rewrite Hk.
    assert (Ht : truthy (ks ++ [k]) = true) by (now destruct ks).
    rewrite Ht.
    erewrite check_for_new_line_snoc by reflexivity.
    cbn [lines set_lines]. destruct (truthy k); cbn.
    + now rewrite <- app_assoc.
    + reflexivity.
  - apply last_None in Hlast. rewrite Hlast. reflexivity.
Qed.

(** ** Laws of the monad *)

Section MonadLaws.
Context {A B : Type}.
Implicit Types (m : M A) (k : A -> M B).

Lemma final_bind m k s :
  final (bind m k s) =
  match m s with
  | Ok _ a s1 => final (k a s1)
  | Raise _ _ s1 => s1
  end.
Proof. unfold bind. destruct (m s) as [o1 a s1|]; [destruct (k a s1)|]; reflexivity. Qed.

Lemma output_bind m k s :
  output (bind m k s) =
  match m s with
  | Ok o1 a s1 => o1 ++ output (k a s1)
  | Raise o1 _ _ => o1
  end.
Proof. unfold bind. destruct (m s) as [o1 a s1|]; [destruct (k a s1)|]; reflexivity. Qed.

Lemma bind_Ok_inv m k s out b s' :
  bind m k s = Ok out b s' ->
  exists o1 a s1 o2,
    m s = Ok o1 a s1 /\ k a s1 = Ok o2 b s' /\ out = o1 ++ o2.
Proof.
  unfold bind. destruct (m s) as [o1 a s1|]; [|discriminate].
  destruct (k a s1) as [o2 b' s2|] eqn:Hk; [|discriminate].
  intros [= <- <- <-]. eauto 8.
Qed.

Lemma bind_Ok m k s o1 a s1 :
  m s = Ok o1 a s1 ->
  bind m k s =
  match k a s1 with
  | Ok o2 b s2 => Ok (o1 ++ o2) b s2
  | Raise o2 e s2 => Raise (o1 ++ o2) e s2
  end.
Proof. unfold bind. now intros ->. Qed.

Lemma readonly_bind m k :
  readonly m -> (forall a, readonly (k a)) -> readonly (bind m k).
Proof.
  intros Hm Hk s. rewrite final_bind. specialize (Hm s).
  destruct (m s) as [o1 a s1|]; cbn in Hm; subst; [apply Hk|reflexivity].
Qed.

Lemma silent_bind m k :
  silent m -> (forall a, silent (k a)) -> silent (bind m k).
Proof.
  intros Hm Hk s. rewrite output_bind. specialize (Hm s).
  destruct (m s) as [o1 a s1|]; cbn in Hm; subst; [apply Hk|reflexivity].
Qed.

Lemma preserves_bind P m k :
  preserves P m -> (forall a, preserves P (k a)) -> preserves P (bind m k).
Proof.
  intros Hm Hk s HP. rewrite final_bind. specialize (Hm s HP).
  destruct (m s) as [o1 a s1|]; cbn in Hm; [now apply Hk|exact Hm].
Qed.

Lemma emits_bind Q m k :
  emits Q m -> (forall a, emits Q (k a)) -> emits Q (bind m k).
Proof.
  intros Hm Hk s. rewrite output_bind. specialize (Hm s).
  destruct (m s) as [o1 a s1|]; cbn in Hm; [|exact Hm].
  apply Forall_app. split; [exact Hm|apply Hk].
Qed.
End MonadLaws.

Lemma final_bind_ret {A B : Type} (m : M A) (b : B) s :
  final (bind m (fun _ => ret b) s) = final (m s).
Proof. rewrite final_bind. now destruct (m s). Qed.

Lemma preserves_bind_get {B : Type} (P : State -> Prop) (k : State -> M B) :
  (forall s, P s -> P (final (k s s))) -> preserves P (bind get k).
Proof. intros Hk s HP. rewrite final_bind. cbn. now apply Hk. Qed.

Lemma readonly_ret {A : Type} (a : A) : readonly (ret a).
Proof. intros s. reflexivity. Qed.

Lemma readonly_raise {A : Type} (e : Exn) : readonly (@raise A e).
Proof. intros s. reflexivity. Qed.

Lemma readonly_get : readonly get.
Proof. intros s. reflexivity. Qed.

Lemma readonly_emit ev : readonly (emit ev).
Proof. intros s. reflexivity. Qed.

Lemma readonly_lift_option {A : Type} e (o : option A) : readonly (lift_option e o).
Proof. destruct o; intros s; reflexivity. Qed.

Lemma readonly_lift_sum {A : Type} (r : Exn + A) : readonly (lift_sum r).
Proof. destruct r; intros s; reflexivity. Qed.

Lemma silent_ret {A : Type} (a : A) : silent (ret a).
Proof. intros s. reflexivity. Qed.

Lemma silent_raise {A : Type} (e : Exn) : silent (@raise A e).
Proof. intros s. reflexivity. Qed.

Lemma silent_get : silent get.
Proof. intros s. reflexivity. Qed.

Lemma silent_put s' : silent (put s').
Proof. intros s. reflexivity. Qed.

Lemma silent_lift_option {A : Type} e (o : option A) : silent (lift_option e o).
Proof. destruct o; intros s; reflexivity. Qed.

Lemma silent_lift_sum {A : Type} (r : Exn + A) : silent (lift_sum r).
Proof. destruct r; intros s; reflexivity. Qed.

Lemma preserves_readonly {A : Type} P (m : M A) : readonly m -> preserves P m.
Proof. intros Hm s HP. now rewrite Hm. Qed.

Lemma emits_silent {A : Type} Q (m : M A) : silent m -> emits Q m.
Proof. intros Hm s. rewrite Hm. constructor. Qed.

Lemma emits_emit Q ev : Q ev -> emits Q (emit ev).
Proof. intros HQ s. cbn. now repeat constructor. Qed.

Create HintDb py discriminated.
#[local] Hint Resolve readonly_ret readonly_raise readonly_get readonly_emit
  readonly_lift_option readonly_lift_sum : py.
#[local] Hint Resolve silent_ret silent_raise silent_get silent_put
  silent_lift_option silent_lift_sum : py.

Ltac quiet :=
  repeat first
    [ progress intros
    | solve [auto with py]
    | apply readonly_bind | apply silent_bind
    | match goal with
      | |- readonly (if ?b then _ else _) => destruct b
      | |- silent (if ?b then _ else _) => destruct b
      | |- readonly (match ?x with _ => _ end) => destruct x
      | |- silent (match ?x with _ => _ end) => destruct x
      end ].

(** ** The methods seen through the three views *)

Lemma silent_current_line : silent Ledger.current_line.
Proof. unfold Ledger.current_line. quiet. Qed.

Lemma readonly_current_line : readonly Ledger.current_line.
Proof. unfold Ledger.current_line. quiet. Qed.

#[local] Hint Resolve silent_current_line readonly_current_line : py.

Lemma silent_add_line x y : silent (Ledger.add_line x y).
Proof. unfold Ledger.add_line. quiet. Qed.

Lemma silent_check_for_new_line : silent Ledger.check_for_new_line.
Proof. unfold Ledger.check_for_new_line. quiet. Qed.

#[local] Hint Resolve silent_add_line silent_check_for_new_line : py.

(** [check_for_new_line] raises on an empty ledger only, and then changes
    nothing. *)
Lemma check_for_new_line_final s :
  final (Ledger.check_for_new_line s) =
  match last (lines s) with
  | Some cur => if truthy cur then set_lines (lines s ++ [[]]) s else s
  | None => s
  end.
Proof.
  destruct (last (lines s)) as [cur|] eqn:Hlast.
  - apply last_Some in Hlast as [front H].
    rewrite (check_for_new_line_snoc front cur s H). cbn.
    destruct (truthy cur); [now rewrite H, <- app_assoc|apply set_lines_id].
  - apply last_None in Hlast. unfold Ledger.check_for_new_line.
    rewrite final_bind, (current_line_nil s Hlast). reflexivity.
Qed.

Lemma add_line_final x y s :
  final (Ledger.add_line x y s) =
  match last (lines s) with
  | Some cur =>
      set_lines (take (length (lines s) - 1) (lines s)
                 ++ [cur ++ [entry_of s x y]]) s
  | None => s
  end.
Proof.
  destruct (last (lines s)) as [cur|] eqn:Hlast.
  - apply last_Some in Hlast as [front H].
    rewrite (add_line_snoc front cur x y s H). cbn.
    rewrite H, length_app. cbn [length].
    replace (length front + 1 - 1)%nat with (length front) by lia.
    now rewrite take_app_length.
  - apply last_None in Hlast. unfold Ledger.add_line.
    rewrite final_bind, (current_line_nil s Hlast). reflexivity.
Qed.

(** *** [draw_lines] *)

Lemma draw_segments_from (line pre rest : Stroke) s :
  line = pre ++ rest ->
  for_each (seq (length pre) (length rest)) (Ledger.draw_segment line) s =
  Ok (match last pre with
      | Some previous => segments_of (previous :: rest)
      | None => segments_of rest
      end) tt s.
Proof.
  revert pre. induction rest as [|current rest IH]; intros pre Hline.
  - cbn. now destruct (last pre).
  - cbn [length seq for_each].
    assert (Hnext : line = (pre ++ [current]) ++ rest)
      by (now rewrite <- app_assoc).
    specialize (IH (pre ++ [current]) Hnext).
    rewrite length_app, Nat.add_1_r, last_snoc in IH.
    destruct (last pre) as [previous|] eqn:Hlast.
    + apply last_Some in Hlast as [pre' ->].
      assert (Hseg : Ledger.draw_segment line (length (pre' ++ [previous])) s =
                     Ok [CvLine (position previous) (position current)
                           (reversed (color previous)) (thickness previous)] tt s).
      { unfold Ledger.draw_segment.
        rewrite length_app, Nat.add_1_r. cbn [Nat.eqb].
        replace (Z.of_nat (S (length pre')) - 1) with (Z.of_nat (length pre'))
          by lia.
        rewrite !getitem_nat, Hline.
        replace (S (length pre')) with (length (pre' ++ [previous]))
          by (rewrite length_app; cbn; lia).
        rewrite (list_lookup_middle (pre' ++ [previous]) rest current _ eq_refl).
        rewrite <- app_assoc. cbn [app].
        rewrite (list_lookup_middle pre' (current :: rest) previous _ eq_refl).
        reflexivity. }
      rewrite (bind_Ok _ _ _ _ _ _ Hseg), IH. reflexivity.
    + apply last_None in Hlast. subst pre. cbn [length] in *.
      unfold Ledger.draw_segment at 1. cbn [Nat.eqb].
      rewrite (bind_Ok _ _ _ [] tt s eq_refl), IH. reflexivity.
Qed.

Lemma draw_lines_spec s :
  Ledger.draw_lines s = Ok (concat (map segments_of (lines s))) tt s.
Proof.
  assert (H : forall ls : list Stroke,
             for_each ls
               (fun line => for_each (seq 0 (length line))
                              (Ledger.draw_segment line)) s =
             Ok (concat (map segments_of ls)) tt s).
  { induction ls as [|line ls IH]; [reflexivity|]. cbn [for_each map concat].
    rewrite (bind_Ok _ _ _ _ _ _ (draw_segments_from line [] line s eq_refl)).
    now rewrite IH. }
  unfold Ledger.draw_lines, bind, get. cbv beta iota. now rewrite H.
Qed.

Lemma readonly_draw_lines : readonly Ledger.draw_lines.
Proof. intros s. now rewrite draw_lines_spec. Qed.

Lemma segments_of_length line : length (segments_of line) = (length line - 1)%nat.
Proof.
  induction line as [|previous [|current rest] IH]; [reflexivity..|].
  change (S (length (segments_of (current :: rest))) =
          (length (previous :: current :: rest) - 1)%nat).
  rewrite IH. cbn [length]. lia.
Qed.

Lemma segments_of_lookup line (k : nat) p q :
  line !! k = Some p -> line !! S k = Some q ->
  segments_of line !! k =
  Some (CvLine (position p) (position q) (reversed (color p)) (thickness p)).
Proof.
  revert k. induction line as [|previous [|current rest] IH]; intros k Hp Hq;
    [discriminate| |].
  - destruct k; discriminate.
  - destruct k as [|k].
    + cbn in Hp, Hq. injection Hp as <-. injection Hq as <-. reflexivity.
    + change ((segments_of (current :: rest)) !! k =
              Some (CvLine (position p) (position q) (reversed (color p))
                      (thickness p))).
      apply IH; assumption.
Qed.

Lemma segments_are_lines line : Forall (fun ev => is_circle ev = false /\ is_error_signal ev = false) (segments_of line).
Proof.
  induction line as [|previous [|current rest] IH]; [constructor..|].
  constructor; [split; reflexivity|exact IH].
Qed.

(** ** The ledger under its invariant *)

Lemma completed_snoc (ls : list Stroke) (l : Stroke) :
  completed (ls ++ [l]) = (completed ls + (if truthy l then 1 else 0))%nat.
Proof.
  unfold completed. rewrite List.filter_app, length_app. cbn.
  now destruct (truthy l).
Qed.

Lemma completed_closed (closed : list Stroke) :
  Forall (fun l => l <> []) closed -> completed closed = length closed.
Proof.
  unfold completed. induction 1 as [|l ls Hl _ IH]; [reflexivity|].
  cbn. apply truthy_true in Hl. rewrite Hl. cbn. now rewrite IH.
Qed.

Lemma kept_by_undo_closed (closed : list Stroke) (cur : Stroke) :
  Forall (fun l => l <> []) closed ->
  Forall (fun l => l <> []) (kept_by_undo closed cur).
Proof.
  intros H. unfold kept_by_undo. destruct (truthy cur); [exact H|].
  now apply Forall_take.
Qed.

Lemma undo_closed closed cur s :
  lines s = closed ++ [cur] ->
  Forall (fun l => l <> []) closed ->
  Ledger.undo s = Ok [] tt (set_lines (kept_by_undo closed cur ++ [[]]) s).
Proof.
  intros H Hclosed. rewrite (undo_snoc closed cur s H).
  pose proof (kept_by_undo_closed closed cur Hclosed) as Hkept.
  destruct (last (kept_by_undo closed cur)) as [l|] eqn:Hlast.
  - assert (Hl : truthy l = true).
    { apply truthy_true. apply last_Some in Hlast as [ks Hk].
      rewrite Hk in Hkept. apply Forall_app in Hkept as [_ Hkept].
      now inversion Hkept. }
    now rewrite Hl.
  - apply last_None in Hlast. now rewrite Hlast.
Qed.

Lemma exec_op_invariant op s :
  ledger_invariant (lines s) ->
  exists s', exec_op op s = Ok [] tt s' /\ ledger_invariant (lines s').
Proof.
  intros Hinv. apply ledger_invariant_snoc in Hinv as (closed & cur & H & Hc).
  destruct op as [x y| | |]; cbn [exec_op].
  - eexists. split; [apply (add_line_snoc closed cur x y s H)|].
    apply ledger_invariant_snoc. cbn. eauto.
  - eexists. split; [apply (check_for_new_line_snoc closed cur s H)|].
    apply ledger_invariant_snoc. cbn. destruct (truthy cur) eqn:Hcur.
    + exists (closed ++ [cur]), []. split; [now rewrite <- app_assoc|].
      apply Forall_app. split; [exact Hc|].
      constructor; [now apply truthy_true|constructor].
    + rewrite H. eauto.
  - eexists. split; [apply (undo_closed closed cur s H Hc)|].
    apply ledger_invariant_snoc. cbn.
    eauto using kept_by_undo_closed.
  - eexists. split; [apply clear_spec|].
    apply ledger_invariant_snoc. cbn. exists [], []. split; [reflexivity|constructor].
Qed.

Lemma exec_ops_invariant ops s :
  ledger_invariant (lines s) ->
  exists s', exec_ops ops s = Ok [] tt s' /\ ledger_invariant (lines s').
Proof.
  revert s. induction ops as [|op ops IH]; intros s Hinv.
  - exists s. split; [reflexivity|exact Hinv].
  - destruct (exec_op_invariant op s Hinv) as (s1 & Hop & Hinv1).
    destruct (IH s1 Hinv1) as (s' & Hops & Hinv').
    exists s'. split; [|exact Hinv'].
    unfold exec_ops in *. cbn [for_each].
    now rewrite (bind_Ok _ _ _ _ _ _ Hop), Hops.
Qed.

Lemma undo_times_closed n :
  forall closed cur s,
    lines s = closed ++ [cur] ->
    Forall (fun l => l <> []) closed ->
    (length closed + (if truthy cur then 1 else 0) <= n)%nat ->
    undo_times n s = Ok [] tt (set_lines [[]] s).
Proof.
  induction n as [|n IH]; intros closed cur s H Hclosed Hn.
  - destruct closed; [|cbn in Hn; lia].
    destruct cur; [|cbn in Hn; lia].
    cbn in H |- *. now rewrite <- H, set_lines_id.
  - cbn [undo_times].
    rewrite (bind_Ok _ _ _ _ _ _ (undo_closed closed cur s H Hclosed)).
    rewrite (IH (kept_by_undo closed cur) []
               (set_lines (kept_by_undo closed cur ++ [[]]) s) eq_refl
               (kept_by_undo_closed closed cur Hclosed)).
    + reflexivity.
    + unfold kept_by_undo. cbn. destruct (truthy cur).
      * lia.
      * rewrite length_take. lia.
Qed.

(** ** Claims about the ledger *)

(** C1. Whatever sequence of [add_line], [check_for_new_line], [undo] and
    [clear] runs on a ledger that starts as one empty line, every call
    returns, the ledger keeps at least one line, and every line but the last
    is non-empty. *)
Theorem ledger_invariant_always (ops : list LedgerOp) (s : State) :
  exists s',
    exec_ops ops (set_lines [[]] s) = Ok [] tt s' /\
    lines s' <> [] /\
    forall (i : nat) (line : Stroke),
      lines s' !! i = Some line -> (S i < length (lines s'))%nat -> line <> [].
Proof.
  apply exec_ops_invariant. apply ledger_invariant_snoc.
  exists [], []. split; [reflexivity|constructor].
Qed.

(** C2, as the claim reads: on every ledger under the invariant [undo]
    takes exactly one non-empty line away.  The ledger of one empty line
    refutes it: [undo] returns it as it is, and it holds no non-empty line. *)
Lemma undo_minimal_ledger_counterexample :
  ledger_invariant (lines initial_state) /\
  Ledger.undo initial_state = Ok [] tt initial_state /\
  ~ (exists s', Ledger.undo initial_state = Ok [] tt s' /\
                S (completed (lines s')) = completed (lines initial_state)).
Proof.
  split; [|split].
  - apply ledger_invariant_snoc. exists [], []. split; [reflexivity|constructor].
  - reflexivity.
  - intros (s' & Hundo & Hcount). cbn in Hundo. injection Hundo as <-.
    discriminate Hcount.
Qed.

(** C2, amended.  On a ledger under the invariant that holds a non-empty
    line, [undo] takes exactly one non-empty line away: the last line when it
    is non-empty, else the empty last line and the line before it; the lines
    in front stay and an empty line closes the ledger.  In particular
    [[S1; S2; []]] becomes [[S1; []]]. *)
Theorem undo_removes_one_completed_stroke (s : State) :
  ledger_invariant (lines s) ->
  lines s <> [[]] ->
  (exists closed done,
      done <> [] /\
      (lines s = closed ++ [done] \/ lines s = closed ++ [done; []]) /\
      Ledger.undo s = Ok [] tt (set_lines (closed ++ [[]]) s) /\
      S (completed (closed ++ [[]])) = completed (lines s)) /\
  (forall S1 S2 : Stroke,
      lines s = [S1; S2; []] ->
      Ledger.undo s = Ok [] tt (set_lines [S1; []] s)).
Proof.
  intros Hinv Hmin.
  apply ledger_invariant_snoc in Hinv as (closed & cur & H & Hc).
  pose proof (undo_closed closed cur s H Hc) as Hundo.
  split.
  - destruct cur as [|p cur].
    + destruct (snoc_inv closed) as (front & done & ->).
      { intros ->. now apply Hmin. }
      exists front, done.
      apply Forall_app in Hc as [Hfront Hdone].
      assert (Hd : done <> []) by now inversion Hdone.
      assert (Hk : kept_by_undo (front ++ [done]) [] = front).
      { unfold kept_by_undo. cbn [truthy]. rewrite length_app. cbn [length].
        replace (length front + 1 - 1)%nat with (length front) by lia.
        apply take_app_length. }
      rewrite Hk in Hundo.
      repeat split; [exact Hd| |exact Hundo|].
      * right. now rewrite H, <- app_assoc.
      * rewrite H, !completed_snoc. cbn [truthy].
        apply truthy_true in Hd. rewrite Hd. lia.
    + exists closed, (p :: cur).
      repeat split; [discriminate|now left|exact Hundo|].
      rewrite H, !completed_snoc. cbn [truthy]. lia.
  - intros S1 S2 H3. rewrite H3 in H.
    change [S1; S2; []] with ([S1; S2] ++ [[]]) in H.
    apply app_inj_tail in H as [<- <-]. exact Hundo.
Qed.

Lemma undo_removes_one_completed_stroke_witness :
  let S1 := [mkStrokePoint (1, 1) 10 (255, 0, 0)] in
  let S2 := [mkStrokePoint (2, 2) 10 (255, 0, 0); mkStrokePoint (3, 3) 4 (0, 0, 255)] in
  let s := set_lines [S1; S2; []] initial_state in
  Ledger.undo s = Ok [] tt (set_lines [S1; []] s).
Proof.
  intros S1 S2 s.
  refine (proj2 (undo_removes_one_completed_stroke s _ _) S1 S2 eq_refl).
  - apply ledger_invariant_snoc. exists [S1; S2], []. split; [reflexivity|].
    repeat constructor; discriminate.
  - discriminate.
Defined.

(** C8. On a ledger under the invariant, [undo] applied as often as there
    are non-empty lines, or more often, returns every time and ends in the
    ledger of one empty line, which is what [clear] makes of any ledger; on
    that ledger [undo] returns and leaves it as it is. *)
Theorem undo_repeated_reaches_clear (s : State) :
  ledger_invariant (lines s) ->
  (forall n : nat,
      (completed (lines s) <= n)%nat ->
      undo_times n s = Ok [] tt (set_lines [[]] s)) /\
  (forall s0 : State, Ledger.clear s0 = Ok [] tt (set_lines [[]] s0)) /\
  Ledger.undo (set_lines [[]] s) = Ok [] tt (set_lines [[]] s).
Proof.
  intros Hinv.
  apply ledger_invariant_snoc in Hinv as (closed & cur & H & Hc).
  split; [|split].
  - intros n Hn. apply (undo_times_closed n closed cur s H Hc).
    rewrite H, completed_snoc, (completed_closed closed Hc) in Hn. exact Hn.
  - intros s0. apply clear_spec.
  - reflexivity.
Qed.

Lemma undo_repeated_reaches_clear_witness :
  let S1 := [mkStrokePoint (1, 1) 10 (255, 0, 0)] in
  let S2 := [mkStrokePoint (2, 2) 10 (255, 0, 0)] in
  let s := set_lines [S1; S2] initial_state in
  undo_times 2 s = Ok [] tt initial_state.
Proof.
  intros S1 S2 s.
  refine (proj1 (undo_repeated_reaches_clear s _) 2%nat _).
  - apply ledger_invariant_snoc. exists [S1], S2. split; [reflexivity|].
    repeat constructor; discriminate.
  - cbn. lia.
Defined.

(** C10. [add_line] appends one entry to the last line, [check_for_new_line]
    appends at most one empty line, and [undo] cuts one or two lines off the
    end and may append one empty line: every line that stays, stays as it
    was, in its place. *)
Theorem ledger_operations_keep_surviving_strokes (s : State)
    (front : list Stroke) (cur : Stroke) :
  lines s = front ++ [cur] ->
  (forall x y : Z,
      Ledger.add_line x y s =
      Ok [] tt (set_lines (front ++ [cur ++ [entry_of s x y]]) s)) /\
  (exists ls,
      Ledger.check_for_new_line s = Ok [] tt (set_lines ls s) /\
      (ls = lines s \/ ls = lines s ++ [[]])) /\
  (exists (k : nat) ls,
      Ledger.undo s = Ok [] tt (set_lines ls s) /\
      (k = 1%nat \/ k = 2%nat) /\
      (ls = take (length (lines s) - k) (lines s) \/
       ls = take (length (lines s) - k) (lines s) ++ [[]])).
Proof.
  intros H. split; [|split].
  - intros x y. now apply add_line_snoc.
  - eexists. split; [apply (check_for_new_line_snoc front cur s H)|].
    destruct (truthy cur); [right|now left].
    now rewrite H, <- app_assoc.
  - exists (if truthy cur then 1%nat else 2%nat). eexists.
    split; [apply (undo_snoc front cur s H)|].
    split; [destruct (truthy cur); auto|].
    assert (Hk : take (length (lines s) - (if truthy cur then 1 else 2)%nat)
                   (lines s) = kept_by_undo front cur).
    { unfold kept_by_undo. rewrite H, length_app. cbn [length].
      destruct (truthy cur).
      - replace (length front + 1 - 1)%nat with (length front) by lia.
        apply take_app_length.
      - replace (length front + 1 - 2)%nat with (length front - 1)%nat by lia.
        apply take_app_le. lia. }
    rewrite Hk. destruct (last (kept_by_undo front cur)) as [l|] eqn:Hlast.
    + destruct (truthy l); auto.
    + apply last_None in Hlast. rewrite Hlast. now right.
Qed.

Lemma ledger_operations_keep_surviving_strokes_witness :
  let S1 := [mkStrokePoint (1, 1) 10 (255, 0, 0)] in
  let S2 := [mkStrokePoint (2, 2) 10 (255, 0, 0)] in
  let s := set_lines [S1; S2] initial_state in
  Ledger.add_line 7 8 s =
  Ok [] tt (set_lines [S1; S2 ++ [mkStrokePoint (7, 8) 10 (255, 0, 0)]] s).
Proof.
  intros S1 S2 s.
  exact (proj1 (ledger_operations_keep_surviving_strokes s [S1] S2 eq_refl) 7 8).
Defined.

(** C9. [draw_lines] changes nothing and hands to [cv2.line], line by line,
    one segment less than the line has entries (none for a line of fewer than
    two entries); the segment from an entry to the next carries the thickness
    and the colour (in OpenCV's channel order) stored with the earlier entry.
    Two entries appended to the open line with a change of settings in
    between give one segment, styled by the settings of the first append. *)
Theorem draw_lines_segments (s : State) :
  (exists drawn : list (list Event),
      Ledger.draw_lines s = Ok (concat drawn) tt s /\
      Forall2
        (fun (line : Stroke) (segs : list Event) =>
           length segs = (length line - 1)%nat /\
           forall (k : nat) p q,
             line !! k = Some p -> line !! S k = Some q ->
             segs !! k =
             Some (CvLine (position p) (position q) (reversed (color p))
                     (thickness p)))
        (lines s) drawn) /\
  (forall (closed : list Stroke) (x1 y1 x2 y2 : Z) (changed : Settings),
      lines s = closed ++ [[]] ->
      exists s1 s3 before,
        Ledger.add_line x1 y1 s = Ok [] tt s1 /\
        Ledger.add_line x2 y2 (set_settings changed s1) = Ok [] tt s3 /\
        Ledger.draw_lines s3 =
        Ok (before ++
            [CvLine (x1, y1) (x2, y2) (reversed (line_color (settings s)))
               (line_thickness (settings s))]) tt s3 /\
        Ledger.draw_lines (set_lines closed s) = Ok before tt (set_lines closed s)).
Proof.
  split.
  - exists (map segments_of (lines s)). split; [apply draw_lines_spec|].
    induction (lines s) as [|line ls IH]; constructor; [|exact IH].
    split; [apply segments_of_length|apply segments_of_lookup].
  - intros closed x1 y1 x2 y2 changed H.
    pose proof (add_line_snoc closed [] x1 y1 s H) as H1.
    set (s1 := set_lines (closed ++ [[] ++ [entry_of s x1 y1]]) s) in H1.
    assert (H2 : lines (set_settings changed s1) = closed ++ [[entry_of s x1 y1]])
      by reflexivity.
    pose proof (add_line_snoc closed _ x2 y2 _ H2) as H3.
    eexists _, _, (concat (map segments_of closed)).
    split; [exact H1|]. split; [exact H3|]. split.
    + rewrite draw_lines_spec. cbn [lines set_lines].
      rewrite map_app, concat_app. reflexivity.
    + apply draw_lines_spec.
Qed.

Lemma draw_lines_segments_witness :
  let s := set_lines [[mkStrokePoint (0, 0) 3 (1, 2, 3)]; []] initial_state in
  exists s1 s3 before,
    Ledger.add_line 10 20 s = Ok [] tt s1 /\
    Ledger.add_line 30 40 (set_settings (mkSettings 50 (0, 255, 0)) s1) =
    Ok [] tt s3 /\
    Ledger.draw_lines s3 =
    Ok (before ++ [CvLine (10, 20) (30, 40) (0, 0, 255) 10]) tt s3 /\
    Ledger.draw_lines (set_lines [[mkStrokePoint (0, 0) 3 (1, 2, 3)]] s) =
    Ok before tt (set_lines [[mkStrokePoint (0, 0) 3 (1, 2, 3)]] s).
Proof.
  intros s.
  exact (proj2 (draw_lines_segments s)
           [[mkStrokePoint (0, 0) 3 (1, 2, 3)]] 10 20 30 40
           (mkSettings 50 (0, 255, 0)) eq_refl).
Defined.

(** ** The frame loop *)

#[local] Hint Resolve readonly_draw_lines : py.

Lemma readonly_pinch_get_coordinates l w h :
  readonly (PinchBoard.get_coordinates l w h).
Proof. unfold PinchBoard.get_coordinates. quiet. Qed.

Lemma silent_pinch_get_coordinates l w h :
  silent (PinchBoard.get_coordinates l w h).
Proof. unfold PinchBoard.get_coordinates. quiet. Qed.

Lemma readonly_finger_get_coordinates l w h :
  readonly (FingerBoard.get_coordinates l w h).
Proof. unfold FingerBoard.get_coordinates. quiet. Qed.

Lemma silent_finger_get_coordinates l w h :
  silent (FingerBoard.get_coordinates l w h).
Proof. unfold FingerBoard.get_coordinates. quiet. Qed.

Lemma readonly_draw_indicator x y : readonly (PinchBoard.draw_indicator x y).
Proof. unfold PinchBoard.draw_indicator. quiet. Qed.

Lemma readonly_draw_circle x y : readonly (FingerBoard.draw_circle x y).
Proof. unfold FingerBoard.draw_circle. quiet. Qed.

Lemma readonly_emit_data_signal h w : readonly (PinchBoard.emit_data_signal h w).
Proof. unfold PinchBoard.emit_data_signal. quiet. Qed.

Lemma readonly_emit_signal h w : readonly (FingerBoard.emit_signal h w).
Proof. unfold FingerBoard.emit_signal. quiet. Qed.

#[local] Hint Resolve readonly_pinch_get_coordinates
  readonly_finger_get_coordinates readonly_draw_indicator readonly_draw_circle
  readonly_emit_data_signal readonly_emit_signal : py.

(** *** A property the ledger methods keep is kept by a whole frame *)

Ltac keeps :=
  repeat first
    [ progress intros
    | solve [apply preserves_readonly; quiet]
    | assumption
    | apply preserves_bind
    | match goal with
      | |- preserves _ (if ?b then _ else _) => destruct b
      | |- preserves _ (match ?x with _ => _ end) => destruct x
      end ].

Section FramePreservation.
Variable P : State -> Prop.
Hypothesis check_keeps : preserves P Ledger.check_for_new_line.
Hypothesis add_keeps :
  forall x y s, P s -> draw s = true -> P (final (Ledger.add_line x y s)).

Lemma guarded_add_line_keeps {C : Type} (b : bool) x y (c : C) :
  preserves P
    (bind get (fun s =>
       bind (if draw s && b then Ledger.add_line x y else ret tt)
         (fun _ => ret c))).
Proof.
  apply preserves_bind_get. intros s HP. rewrite final_bind_ret.
  destruct (draw s) eqn:Hdraw, b; cbn [andb]; auto.
Qed.

Lemma check_if_pinched_keeps l : preserves P (PinchBoard.check_if_pinched l).
Proof. unfold PinchBoard.check_if_pinched. keeps. Qed.

Lemma finger_up_loop_keeps l rest : preserves P (FingerBoard.finger_up_loop l rest).
Proof. induction rest as [|lm rest IH]; cbn [FingerBoard.finger_up_loop]; keeps. Qed.

Lemma pinch_run_iteration_keeps r : preserves P (PinchBoard.run_iteration r).
Proof.
  unfold PinchBoard.run_iteration.
  destruct (negb (success r)); [keeps|].
  apply preserves_bind; [keeps|]. intros img.
  apply preserves_bind; [|keeps].
  destruct (multi_hand_landmarks img) as [|l ?]; [keeps|].
  apply preserves_bind; [keeps|]. intros p.
  apply preserves_bind; [apply check_if_pinched_keeps|]. intros b.
  apply guarded_add_line_keeps.
Qed.

Lemma finger_run_iteration_keeps r : preserves P (FingerBoard.run_iteration r).
Proof.
  unfold FingerBoard.run_iteration.
  apply preserves_bind; [keeps|]. intros img.
  apply preserves_bind; [|keeps].
  destruct (multi_hand_landmarks img) as [|l ?]; [keeps|].
  apply preserves_bind; [apply finger_up_loop_keeps|]. intros [|]; [|keeps].
  apply preserves_bind; [keeps|]. intros p.
  pose proof (guarded_add_line_keeps true (fst p) (snd p) (Some p)) as H.
  intros s HP. specialize (H s HP).
  rewrite final_bind in H |- *. cbn [get] in H |- *.
  now rewrite andb_true_r in H.
Qed.

Lemma pinch_run_loop_keeps reads : preserves P (PinchBoard.run_loop reads).
Proof.
  induction reads as [|r reads IH]; cbn [PinchBoard.run_loop]; [keeps|].
  apply preserves_bind; [keeps|]. intros s0.
  destruct (run_video_thread s0); [|keeps].
  apply preserves_bind; [apply pinch_run_iteration_keeps|].
  intros [|]; [exact IH|keeps].
Qed.
End FramePreservation.

(** *** What a returning frame has done *)

Lemma silent_Ok {A : Type} (m : M A) s o a s1 :
  silent m -> m s = Ok o a s1 -> o = [].
Proof. intros Hs H. specialize (Hs s). now rewrite H in Hs. Qed.

Lemma readonly_Ok {A : Type} (m : M A) s o a s1 :
  readonly m -> m s = Ok o a s1 -> s1 = s.
Proof. intros Hr H. specialize (Hr s). now rewrite H in Hr. Qed.

Lemma bind_ret_l {A B : Type} (a : A) (k : A -> M B) s :
  bind (ret a) k s = k a s.
Proof. unfold bind, ret. now destruct (k a s). Qed.

Lemma bind_get {B : Type} (k : State -> M B) s : bind get k s = k s s.
Proof. unfold bind, get. now destruct (k s s). Qed.

Lemma bind_ret_r_Ok {A B : Type} (m : M A) (b : B) s o a s1 :
  m s = Ok o a s1 -> bind m (fun _ => ret b) s = Ok o b s1.
Proof. intros H. rewrite (bind_Ok _ _ _ _ _ _ H). cbn. now rewrite app_nil_r. Qed.

Lemma bind_ret_r_inv {A B : Type} (m : M A) (b b' : B) s o s1 :
  bind m (fun _ => ret b) s = Ok o b' s1 ->
  b' = b /\ exists a, m s = Ok o a s1.
Proof.
  intros H. apply bind_Ok_inv in H as (o1 & a & s0 & o2 & Hm & Hret & ->).
  injection Hret as <- <- <-. rewrite app_nil_r. eauto.
Qed.

Lemma silent_check_if_pinched l : silent (PinchBoard.check_if_pinched l).
Proof. unfold PinchBoard.check_if_pinched. quiet. Qed.

Lemma silent_finger_up_loop l rest : silent (FingerBoard.finger_up_loop l rest).
Proof. induction rest as [|lm rest IH]; cbn [FingerBoard.finger_up_loop]; quiet. Qed.

Lemma check_if_pinched_cases l s :
  PinchBoard.check_if_pinched l s =
  match getitem l PinchBoard.index_finger_tip, getitem l PinchBoard.thumb_tip with
  | Some ift, Some tt_ =>
      if PinchBoard.within_tolerance ift tt_ then Ok [] true s
      else bind Ledger.check_for_new_line (fun _ => ret false) s
  | _, _ => Raise [] IndexError s
  end.
Proof.
  unfold PinchBoard.check_if_pinched.
  destruct (getitem l PinchBoard.index_finger_tip) as [ift|]; [|reflexivity].
  cbn [lift_option]. rewrite bind_ret_l.
  destruct (getitem l PinchBoard.thumb_tip) as [tt_|]; [|reflexivity].
  cbn [lift_option]. rewrite bind_ret_l.
  now destruct (PinchBoard.within_tolerance ift tt_).
Qed.

(** The tail of a frame of the pinch variant: drawing, indicator, signal. *)
Lemma pinch_frame_tail (gesture : option (Point * bool)) h w s out c s' :
  bind Ledger.draw_lines (fun _ =>
    bind get (fun s0 =>
      bind
        match gesture with
        | Some (p, is_pinched) =>
            if draw s0 && negb is_pinched
            then PinchBoard.draw_indicator (fst p) (snd p)
            else ret tt
        | None => ret tt
        end
        (fun _ => bind (PinchBoard.emit_data_signal h w)
                    (fun _ => ret Continue)))) s = Ok out c s' ->
  s' = s /\ c = Continue /\
  out = concat (map segments_of (lines s))
        ++ match gesture with
           | Some (p, is_pinched) =>
               if draw s && negb is_pinched
               then [CvCircle p (Z.quot (line_thickness (settings s)) 2)
                       (reversed PinchBoard.indicator_color) (-1)]
               else []
           | None => []
           end
        ++ [DataSignal h w].
Proof.
  rewrite (bind_Ok _ _ _ _ _ _ (draw_lines_spec s)), bind_get.
  destruct gesture as [[[x y] [|]]|], (draw s); cbn;
    intros [= <- <- <-]; auto.
Qed.

Lemma pinch_frame_with_hand r img l hs s out c s' :
  success r = true ->
  image r = Some img ->
  multi_hand_landmarks img = l :: hs ->
  PinchBoard.run_iteration r s = Ok out c s' ->
  exists p b s1,
    PinchBoard.get_coordinates l (image_width img) (image_height img) s
    = Ok [] p s /\
    PinchBoard.check_if_pinched l s = Ok [] b s1 /\
    (if draw s1 && b then Ledger.add_line (fst p) (snd p) s1 else Ok [] tt s1)
    = Ok [] tt s' /\
    c = Continue /\
    out = concat (map segments_of (lines s'))
          ++ (if draw s' && negb b
              then [CvCircle p (Z.quot (line_thickness (settings s')) 2)
                      (reversed PinchBoard.indicator_color) (-1)]
              else [])
          ++ [DataSignal (image_height img) (image_width img)].
Proof.
  intros Hsucc Himg Hhands H. unfold PinchBoard.run_iteration in H.
  rewrite Hsucc, Himg in H. cbn [negb lift_option] in H.
  rewrite bind_ret_l, Hhands in H.
  apply bind_Ok_inv in H as (og & gesture & sg & ot & Hg & Ht & ->).
  apply pinch_frame_tail in Ht as (-> & -> & ->).
  apply bind_Ok_inv in Hg as (o1 & p & s0 & o2 & Hp & Hg & ->).
  pose proof (silent_Ok _ _ _ _ _ (silent_pinch_get_coordinates _ _ _) Hp) as ->.
  pose proof (readonly_Ok _ _ _ _ _ (readonly_pinch_get_coordinates _ _ _) Hp) as ->.
  apply bind_Ok_inv in Hg as (o3 & b & s1 & o4 & Hb & Hg & ->).
  pose proof (silent_Ok _ _ _ _ _ (silent_check_if_pinched _) Hb) as ->.
  apply bind_Ok_inv in Hg as (o5 & s1' & s1'' & o6 & Hget & Hg & ->).
  injection Hget as <- <- <-.
  apply bind_ret_r_inv in Hg as (-> & [] & Hadd).
  assert (Ho6 : o6 = []).
  { destruct (draw s1 && b).
    - exact (silent_Ok _ _ _ _ _ (silent_add_line _ _) Hadd).
    - now injection Hadd as <- _. }
  subst o6. exists p, b, s1. repeat split; try assumption.
  destruct (draw s1 && b); exact Hadd.
Qed.

Lemma pinch_frame_without_hand r img s out c s' :
  success r = true ->
  image r = Some img ->
  multi_hand_landmarks img = [] ->
  PinchBoard.run_iteration r s = Ok out c s' ->
  Ledger.check_for_new_line s = Ok [] tt s' /\
  c = Continue /\
  out = concat (map segments_of (lines s'))
        ++ [DataSignal (image_height img) (image_width img)].
Proof.
  intros Hsucc Himg Hhands H. unfold PinchBoard.run_iteration in H.
  rewrite Hsucc, Himg in H. cbn [negb lift_option] in H.
  rewrite bind_ret_l, Hhands in H.
  apply bind_Ok_inv in H as (og & gesture & sg & ot & Hg & Ht & ->).
  apply pinch_frame_tail in Ht as (-> & -> & ->).
  apply bind_ret_r_inv in Hg as (-> & [] & Hcheck).
  pose proof (silent_Ok _ _ _ _ _ silent_check_for_new_line Hcheck) as ->.
  auto.
Qed.

#[local] Hint Resolve silent_pinch_get_coordinates silent_finger_get_coordinates
  silent_check_if_pinched silent_finger_up_loop : py.

Lemma finger_up_loop_cases l rest tip s :
  getitem l FingerBoard.index_finger_tip = Some tip ->
  FingerBoard.finger_up_loop l rest s =
  if forallb (fun landmark => PrimFloat.leb (Landmark.y tip) (Landmark.y landmark)) rest
  then Ok [] true s
  else bind Ledger.check_for_new_line (fun _ => ret false) s.
Proof.
  intros Htip. induction rest as [|lm rest IH]; [reflexivity|].
  cbn [FingerBoard.finger_up_loop forallb]. rewrite Htip. cbn [lift_option].
  rewrite bind_ret_l.
  now destruct (PrimFloat.leb (Landmark.y tip) (Landmark.y lm)).
Qed.

Lemma indicator_drawn_app o1 o2 :
  indicator_drawn (o1 ++ o2) = indicator_drawn o1 || indicator_drawn o2.
Proof. apply existsb_app. Qed.

Lemma indicator_drawn_segments (ls : list Stroke) :
  indicator_drawn (concat (map segments_of ls)) = false.
Proof.
  induction ls as [|line ls IH]; [reflexivity|].
  cbn [map concat]. rewrite indicator_drawn_app, IH, orb_false_r.
  induction (segments_are_lines line) as [|ev evs [Hev _] _ IHl]; [reflexivity|].
  cbn. now rewrite Hev.
Qed.

Lemma emits_draw_lines Q :
  (forall p q c t, Q (CvLine p q c t)) -> emits Q Ledger.draw_lines.
Proof.
  intros HQ s. rewrite draw_lines_spec. cbn [output].
  induction (lines s) as [|line ls IH]; [constructor|].
  cbn [map concat]. apply Forall_app. split; [|exact IH].
  clear IH. induction line as [|previous [|current rest] IH]; [constructor..|].
  constructor; [apply HQ|exact IH].
Qed.

Lemma finger_run_iteration_emits Q r :
  (forall p q c t, Q (CvLine p q c t)) ->
  (forall p rad c t, Q (CvCircle p rad c t)) ->
  (forall h w, Q (DataSignal h w)) ->
  emits Q (FingerBoard.run_iteration r).
Proof.
  intros Hline Hcircle Hdata. unfold FingerBoard.run_iteration.
  apply emits_bind; [apply emits_silent; quiet|]. intros img.
  apply emits_bind.
  { apply emits_silent. unfold FingerBoard.check_if_index_finger_is_up. quiet. }
  intros gesture.
  apply emits_bind; [now apply emits_draw_lines|]. intros _.
  apply emits_bind.
  - destruct gesture as [p|]; [|apply emits_silent; quiet].
    unfold FingerBoard.draw_circle.
    apply emits_bind; [apply emits_silent; quiet|]. intros s0.
    apply emits_emit, Hcircle.
  - intros _. destruct (success r); [|apply emits_silent; quiet].
    apply emits_emit, Hdata.
Qed.

Lemma finger_frame_with_hand r img l hs s out u s' :
  image r = Some img ->
  multi_hand_landmarks img = l :: hs ->
  FingerBoard.run_iteration r s = Ok out u s' ->
  exists up s1,
    FingerBoard.check_if_index_finger_is_up l s = Ok [] up s1 /\
    indicator_drawn out = up.
Proof.
  intros Himg Hhands H. unfold FingerBoard.run_iteration in H.
  rewrite Himg in H. cbn [lift_option] in H. rewrite bind_ret_l, Hhands in H.
  apply bind_Ok_inv in H as (og & gesture & sg & ot & Hg & Ht & ->).
  rewrite (bind_Ok _ _ _ _ _ _ (draw_lines_spec sg)) in Ht.
  apply bind_Ok_inv in Hg as (o1 & up & s1 & o2 & Hup & Hg & ->).
  pose proof (silent_Ok _ _ _ _ _ (silent_finger_up_loop _ _) Hup) as ->.
  exists up, s1. split; [exact Hup|].
  assert (o2 = [] /\ (gesture = None <-> up = false)) as [-> Hgesture].
  { destruct up.
    - apply bind_Ok_inv in Hg as (o3 & p & s2 & o4 & Hp & Hg & ->).
      pose proof (silent_Ok _ _ _ _ _ (silent_finger_get_coordinates _ _ _) Hp)
        as ->.
      rewrite bind_get in Hg.
      apply bind_ret_r_inv in Hg as (-> & [] & Hadd). split.
      + destruct (draw s2).
        * exact (silent_Ok _ _ _ _ _ (silent_add_line _ _) Hadd).
        * now injection Hadd as <- _.
      + split; discriminate.
    - injection Hg as <- <- _. now split. }
  destruct gesture as [p|], up;
    try (exfalso; destruct Hgesture as [H1 H2];
         first [now specialize (H1 eq_refl) | now specialize (H2 eq_refl)]);
    cbn in Ht; destruct (success r); cbn in Ht; injection Ht as <- _ _;
    cbn [app]; rewrite !indicator_drawn_app, indicator_drawn_segments;
    reflexivity.
Qed.

(** *** Properties the ledger methods keep *)

Lemma check_for_new_line_opens s :
  lines s <> [] ->
  let s' := final (Ledger.check_for_new_line s) in
  lines s' <> [] /\ last (lines s') = Some [] /\ draw s' = draw s.
Proof.
  intros Hne. cbv zeta. rewrite check_for_new_line_final.
  destruct (last (lines s)) as [cur|] eqn:Hlast.
  - destruct cur as [|p cur]; cbn [truthy].
    + auto.
    + cbn [lines set_lines draw]. rewrite last_snoc.
      split; [|auto]. now destruct (lines s).
  - now apply last_None in Hlast.
Qed.

Lemma check_keeps_draw d : preserves (fun s => draw s = d) Ledger.check_for_new_line.
Proof.
  intros s Hd. rewrite check_for_new_line_final.
  destruct (last (lines s)) as [cur|]; [destruct (truthy cur)|]; exact Hd.
Qed.

Lemma add_keeps_draw d x y s :
  draw s = d -> draw (final (Ledger.add_line x y s)) = d.
Proof.
  intros Hd. rewrite add_line_final. now destruct (last (lines s)).
Qed.

Lemma check_keeps_paused (L : list Stroke) :
  last L = Some [] ->
  preserves (fun s => draw s = false /\ lines s = L) Ledger.check_for_new_line.
Proof.
  intros HL s [Hd Hl]. rewrite check_for_new_line_final, Hl, HL. auto.
Qed.

Lemma check_keeps_points (L : list Stroke) :
  preserves
    (fun s => draw s = false /\ (lines s = L \/ lines s = L ++ [[]]))
    Ledger.check_for_new_line.
Proof.
  intros s [Hd Hl]. rewrite check_for_new_line_final.
  destruct (last (lines s)) as [cur|] eqn:Hlast; [|auto].
  destruct cur as [|p cur]; cbn [truthy]; [auto|].
  cbn [lines set_lines draw]. split; [exact Hd|].
  destruct Hl as [Hl|Hl].
  - right. now rewrite Hl.
  - rewrite Hl, last_snoc in Hlast. discriminate.
Qed.

Lemma check_keeps_open : preserves paused_ledger_open Ledger.check_for_new_line.
Proof.
  intros s [Hne Hpaused].
  destruct (check_for_new_line_opens s Hne) as (Hne' & Hlast & Hdraw).
  split; auto.
Qed.

Lemma add_keeps_open x y s :
  paused_ledger_open s -> draw s = true ->
  paused_ledger_open (final (Ledger.add_line x y s)).
Proof.
  intros [Hne _] Hdraw. rewrite add_line_final.
  destruct (last (lines s)) as [cur|] eqn:Hlast.
  - split; cbn [lines set_lines draw].
    + now destruct (take (length (lines s) - 1) (lines s)).
    + congruence.
  - now apply last_None in Hlast.
Qed.

Lemma undo_keeps_open : preserves paused_ledger_open Ledger.undo.
Proof.
  intros s [Hne _]. destruct (snoc_inv _ Hne) as (front & cur & H).
  rewrite (undo_snoc front cur s H). cbn [final].
  split; cbn [lines set_lines draw]; intros;
    destruct (last (kept_by_undo front cur)) as [l|] eqn:Hlast;
    try reflexivity; try discriminate.
  - destruct (truthy l); now destruct (kept_by_undo front cur).
  - destruct l as [|p l]; cbn [truthy]; [exact Hlast|apply last_snoc].
Qed.

Lemma command_keeps_open c : preserves paused_ledger_open (exec_command c).
Proof.
  destruct c as [| | |v|col]; cbn [exec_command].
  - intros s [Hne _]. unfold Ledger.toggle_draw.
    rewrite final_bind. cbn [get]. rewrite final_bind. cbn [put].
    destruct (check_for_new_line_opens (set_draw (negb (draw s)) s) Hne)
      as (Hne' & Hlast & _).
    split; auto.
  - apply undo_keeps_open.
  - intros s _. split; [discriminate|reflexivity].
  - intros s H. exact H.
  - intros s H. exact H.
Qed.

Lemma reachable_open {A : Type} (iteration : ReadResult -> M A) :
  (forall r, preserves paused_ledger_open (iteration r)) ->
  forall s, reachable iteration s -> paused_ledger_open s.
Proof.
  intros Hiter s Hreach. induction Hreach as [|s r _ IH|s c _ IH].
  - split; [discriminate|reflexivity].
  - now apply Hiter.
  - now apply command_keeps_open.
Qed.

Lemma check_keeps_closed closed :
  preserves (extends_closed closed) Ledger.check_for_new_line.
Proof.
  intros s (rest & Hrest & H). rewrite check_for_new_line_final.
  destruct (last (lines s)) as [cur|]; [|now exists rest].
  destruct (truthy cur); [|now exists rest].
  exists (rest ++ [[]]). split; [now destruct rest|].
  cbn [lines set_lines]. now rewrite H, <- app_assoc.
Qed.

Lemma add_keeps_closed closed x y s :
  extends_closed closed s -> extends_closed closed (final (Ledger.add_line x y s)).
Proof.
  intros (rest & Hrest & H).
  destruct (snoc_inv rest Hrest) as (front & cur & ->).
  rewrite app_assoc in H.
  rewrite (add_line_snoc (closed ++ front) cur x y s H). cbn [final].
  exists (front ++ [cur ++ [entry_of s x y]]).
  split; [now destruct front|]. cbn [lines set_lines]. now rewrite app_assoc.
Qed.

Lemma pinch_inactive_frame_checks r s out c s' :
  success r = true ->
  pinch_active r = false ->
  PinchBoard.run_iteration r s = Ok out c s' ->
  Ledger.check_for_new_line s = Ok [] tt s'.
Proof.
  intros Hsucc Hact H.
  destruct (image r) as [img|] eqn:Himg.
  2:{ unfold PinchBoard.run_iteration in H. rewrite Hsucc, Himg in H.
      discriminate. }
  destruct (multi_hand_landmarks img) as [|l hs] eqn:Hhands.
  - now destruct (pinch_frame_without_hand r img s out c s' Hsucc Himg Hhands H).
  - destruct (pinch_frame_with_hand r img l hs s out c s' Hsucc Himg Hhands H)
      as (p & b & s1 & _ & Hb & Hadd & _).
    unfold pinch_active in Hact. rewrite Himg, Hhands in Hact.
    rewrite check_if_pinched_cases in Hb.
    destruct (getitem l PinchBoard.index_finger_tip) as [ift|]; [|discriminate].
    destruct (getitem l PinchBoard.thumb_tip) as [tt_|]; [|discriminate].
    rewrite Hact in Hb. apply bind_ret_r_inv in Hb as (-> & [] & Hcheck).
    rewrite andb_false_r in Hadd. now injection Hadd as <-.
Qed.

(** *** Comparison of floats *)

Lemma float_leb_left_refl (a b : float) :
  PrimFloat.leb a b = true -> PrimFloat.leb a a = true.
Proof.
  rewrite !FloatAxioms.leb_spec. unfold SFleb.
  destruct (Prim2SF a) as [sa|sa| |sa ma ea]; cbn.
  - reflexivity.
  - now destruct sa.
  - discriminate.
  - intros _. rewrite Z.compare_refl, Pos.compare_cont_refl. now destruct sa.
Qed.

(** ** Claims about gestures and frames *)

(** C3, as the claim reads: the finger counts as up exactly when the
    fingertip's [y] is strictly less than the [y] of every other landmark.
    A hand whose landmarks all share one height refutes it: the method
    returns [True], and the fingertip is above no landmark. *)
Lemma finger_up_strict_counterexample :
  let landmarks := repeat (Landmark.mk 0.5 0.5) 21 in
  FingerBoard.check_if_index_finger_is_up landmarks initial_state
  = Ok [] true initial_state /\
  ~ (forall (i : nat) lm tip,
        i <> 8%nat ->
        landmarks !! i = Some lm ->
        landmarks !! 8%nat = Some tip ->
        PrimFloat.ltb (Landmark.y tip) (Landmark.y lm) = true).
Proof.
  intros landmarks. split; [vm_compute; reflexivity|].
  intros H.
  assert (Hlt := H 0%nat (Landmark.mk 0.5 0.5) (Landmark.mk 0.5 0.5)
                   ltac:(discriminate) eq_refl eq_refl).
  vm_compute in Hlt. discriminate Hlt.
Qed.

(** C3, amended.  For a hand that has an index fingertip, and with a
    ledger that holds a line, [check_if_index_finger_is_up] returns, and it
    returns [True] exactly when the fingertip's [y] is less than or equal to
    the [y] of every other landmark. *)
Theorem finger_up_iff_no_landmark_above
    (landmarks : list Landmark.t) (tip : Landmark.t) (s : State) :
  getitem landmarks FingerBoard.index_finger_tip = Some tip ->
  lines s <> [] ->
  exists b s',
    FingerBoard.check_if_index_finger_is_up landmarks s = Ok [] b s' /\
    (b = true <->
     forall (i : nat) lm,
       i <> 8%nat ->
       landmarks !! i = Some lm ->
       PrimFloat.leb (Landmark.y tip) (Landmark.y lm) = true).
Proof.
  intros Htip Hne. unfold FingerBoard.check_if_index_finger_is_up.
  rewrite (finger_up_loop_cases _ _ tip s Htip).
  assert (Hl8 : landmarks !! 8%nat = Some tip)
    by (rewrite <- getitem_nat; exact Htip).
  set (above := fun landmark : Landmark.t =>
                  PrimFloat.leb (Landmark.y tip) (Landmark.y landmark)).
  assert (Hiff : forallb above landmarks = true <->
                 forall (i : nat) lm,
                   i <> 8%nat -> landmarks !! i = Some lm -> above lm = true).
  { rewrite List.forallb_forall. split.
    - intros H i lm _ Hi. apply H.
      eapply list_elem_of_In, list_elem_of_lookup_2, Hi.
    - intros H lm Hin.
      apply list_elem_of_In, list_elem_of_lookup_1 in Hin as [i Hi].
      destruct (decide (i = 8%nat)) as [->|Hi8]; [|now apply (H i)].
      rewrite Hl8 in Hi. injection Hi as <-.
      destruct landmarks as [|lm0 others]; [discriminate|].
      apply (float_leb_left_refl _ (Landmark.y lm0)).
      now apply (H 0%nat lm0). }
  destruct (forallb above landmarks) eqn:Hall.
  - exists true, s. split; [reflexivity|]. split; [intros _|reflexivity].
    now apply Hiff.
  - destruct (snoc_inv _ Hne) as (front & cur & H).
    rewrite (bind_ret_r_Ok _ _ _ _ _ _ (check_for_new_line_snoc front cur s H)).
    eexists false, _. split; [reflexivity|]. split; [discriminate|].
    intros Hx. apply Hiff in Hx. discriminate Hx.
Qed.

Lemma finger_up_iff_no_landmark_above_witness :
  let landmarks := repeat (Landmark.mk 0.5 0.5) 21 in
  exists b s',
    FingerBoard.check_if_index_finger_is_up landmarks initial_state
    = Ok [] b s' /\
    (b = true <->
     forall (i : nat) lm,
       i <> 8%nat ->
       landmarks !! i = Some lm ->
       PrimFloat.leb 0.5 (Landmark.y lm) = true).
Proof.
  intros landmarks.
  refine (finger_up_iff_no_landmark_above landmarks (Landmark.mk 0.5 0.5)
            initial_state _ _).
  - reflexivity.
  - discriminate.
Defined.

(** C4, as the claim reads: with a hand in the frame the indicator is drawn
    exactly when the gesture is active and drawing is switched off.  The
    pinch variant refutes both directions: a pinching hand with drawing off
    gets no indicator, and an open hand with drawing on gets one. *)
Lemma indicator_when_paused_counterexample :
  let pinching := sample_hand (Landmark.mk 0.5 0.5) (Landmark.mk 0.515625 0.5) in
  let open := sample_hand (Landmark.mk 0.5 0.5) (Landmark.mk 0.75 0.5) in
  let paused := set_draw false initial_state in
  (PinchBoard.check_if_pinched pinching paused = Ok [] true paused /\
   draw paused = false /\
   PinchBoard.run_iteration (sample_frame [pinching]) paused
   = Ok [DataSignal 480 640] Continue paused /\
   indicator_drawn [DataSignal 480 640] = false) /\
  (PinchBoard.check_if_pinched open initial_state = Ok [] false initial_state /\
   draw initial_state = true /\
   PinchBoard.run_iteration (sample_frame [open]) initial_state
   = Ok [CvCircle (400, 240) 5 (150, 150, 150) (-1); DataSignal 480 640]
       Continue initial_state /\
   indicator_drawn [CvCircle (400, 240) 5 (150, 150, 150) (-1);
                    DataSignal 480 640] = true).
Proof. vm_compute. repeat split. Qed.

(** C4, amended.  With a hand in the frame, the pinch variant draws its
    indicator exactly when drawing is switched on and the hand does not
    pinch; the finger variant draws its circle exactly when the index finger
    is up, whether drawing is switched on or off. *)
Theorem indicator_rule :
  (forall r img l hs s out c s',
      success r = true ->
      image r = Some img ->
      multi_hand_landmarks img = l :: hs ->
      PinchBoard.run_iteration r s = Ok out c s' ->
      exists is_pinched s1,
        PinchBoard.check_if_pinched l s = Ok [] is_pinched s1 /\
        indicator_drawn out = draw s && negb is_pinched) /\
  (forall r img l hs s out u s',
      image r = Some img ->
      multi_hand_landmarks img = l :: hs ->
      FingerBoard.run_iteration r s = Ok out u s' ->
      exists is_index_finger_up s1,
        FingerBoard.check_if_index_finger_is_up l s
        = Ok [] is_index_finger_up s1 /\
        indicator_drawn out = is_index_finger_up).
Proof.
  split.
  - intros r img l hs s out c s' Hsucc Himg Hhands H.
    destruct (pinch_frame_with_hand r img l hs s out c s' Hsucc Himg Hhands H)
      as (p & b & s1 & _ & Hb & _ & _ & ->).
    exists b, s1. split; [exact Hb|].
    assert (Hdraw : draw s' = draw s).
    { pose proof (pinch_run_iteration_keeps (fun st => draw st = draw s)
                    (check_keeps_draw (draw s))
                    (fun x y st Hst _ => add_keeps_draw (draw s) x y st Hst)
                    r s eq_refl) as Hk.
      now rewrite H in Hk. }
    rewrite !indicator_drawn_app, indicator_drawn_segments, Hdraw.
    now destruct (draw s), b.
  - intros r img l hs s out u s' Himg Hhands H.
    exact (finger_frame_with_hand r img l hs s out u s' Himg Hhands H).
Qed.

Lemma indicator_rule_witness :
  let open := sample_hand (Landmark.mk 0.5 0.5) (Landmark.mk 0.75 0.5) in
  exists is_pinched s1,
    PinchBoard.check_if_pinched open initial_state = Ok [] is_pinched s1 /\
    indicator_drawn [CvCircle (400, 240) 5 (150, 150, 150) (-1);
                     DataSignal 480 640]
    = draw initial_state && negb is_pinched.
Proof.
  intros open.
  refine (proj1 indicator_rule (sample_frame [open]) _ open []
            initial_state _ Continue initial_state eq_refl eq_refl eq_refl _).
  vm_compute. reflexivity.
Defined.

(** C5, as the claim reads: a failed read makes the loop emit an error
    signal and halt.  The finger variant refutes it: on a failed read it asks
    the missing image for its shape, the iteration ends in an exception, and
    no error signal has been emitted. *)
Lemma failed_read_finger_counterexample :
  let r := {| success := false; image := None |} in
  FingerBoard.run_iteration r initial_state
  = Raise [] AttributeError initial_state /\
  error_signalled (output (FingerBoard.run_iteration r initial_state)) = false.
Proof. split; reflexivity. Qed.

(** C5, amended.  In the pinch variant an iteration whose read failed emits
    the error signal and leaves the loop: whatever came with the read is not
    looked at, the fields stay as they were, no further read is taken, and
    the camera is released.  The finger variant has no error signal: none of
    its iterations emits one. *)
Theorem failed_read_halts_pinch_loop :
  (forall r s,
      success r = false ->
      PinchBoard.run_iteration r s
      = Ok [ErrorSignal PinchBoard.error_message] Break s) /\
  (forall r reads s,
      success r = false ->
      run_video_thread s = true ->
      PinchBoard.run (r :: reads) s
      = Ok [ErrorSignal PinchBoard.error_message; VideoRelease] Stopped s) /\
  (forall r s,
      error_signalled (output (FingerBoard.run_iteration r s)) = false).
Proof.
  split; [|split].
  - intros r s Hsucc. unfold PinchBoard.run_iteration. now rewrite Hsucc.
  - intros r reads s Hsucc Hrun.
    unfold PinchBoard.run. cbn [PinchBoard.run_loop].
    unfold PinchBoard.run_iteration. rewrite Hsucc. cbn [negb].
    unfold bind, get, emit, ret. now rewrite Hrun.
  - intros r s.
    pose proof (finger_run_iteration_emits
                  (fun ev => is_error_signal ev = false) r
                  (fun _ _ _ _ => eq_refl) (fun _ _ _ _ => eq_refl)
                  (fun _ _ => eq_refl) s) as Hout.
    unfold error_signalled.
    induction Hout as [|ev evs Hev _ IH]; [reflexivity|].
    cbn. now rewrite Hev.
Qed.

Lemma failed_read_halts_pinch_loop_witness :
  PinchBoard.run
    [{| success := false; image := None |}; sample_frame []] initial_state
  = Ok [ErrorSignal PinchBoard.error_message; VideoRelease] Stopped
      initial_state.
Proof.
  exact (proj1 (proj2 failed_read_halts_pinch_loop)
           {| success := false; image := None |} [sample_frame []]
           initial_state eq_refl eq_refl).
Defined.

(** C6. Once the pinch variant has processed a frame in which the hand
    does not pinch or no hand is seen, the ledger ends in an empty line behind
    all the lines written so far; whatever frames the loop processes next,
    those lines stay as they are and every later point lands in a line behind
    them. *)
Theorem inactive_frame_starts_new_stroke
    (r : ReadResult) (reads : list ReadResult) (s1 s2 s3 : State)
    (out1 out2 : list Event) (c : LoopControl) (status : LoopStatus) :
  success r = true ->
  pinch_active r = false ->
  PinchBoard.run_iteration r s1 = Ok out1 c s2 ->
  PinchBoard.run_loop reads s2 = Ok out2 status s3 ->
  exists closed rest,
    (lines s1 = closed \/ lines s1 = closed ++ [[]]) /\
    lines s2 = closed ++ [[]] /\
    lines s3 = closed ++ rest /\
    rest <> [].
Proof.
  intros Hsucc Hact Hframe Hloop.
  pose proof (pinch_inactive_frame_checks r s1 out1 c s2 Hsucc Hact Hframe)
    as Hcheck.
  assert (Hne : lines s1 <> []).
  { intros Hnil. unfold Ledger.check_for_new_line in Hcheck.
    apply bind_Ok_inv in Hcheck as (o & line & s0 & o' & Hcur & _).
    rewrite (current_line_nil s1 Hnil) in Hcur. discriminate Hcur. }
  destruct (snoc_inv _ Hne) as (front & cur & H).
  rewrite (check_for_new_line_snoc front cur s1 H) in Hcheck.
  injection Hcheck as <-.
  set (closed := if truthy cur then front ++ [cur] else front).
  set (s2 := set_lines (if truthy cur then front ++ [cur; []] else lines s1) s1)
    in *.
  assert (Hs2 : lines s2 = closed ++ [[]]).
  { subst s2 closed. cbn [lines set_lines]. destruct cur as [|p cur]; cbn [truthy].
    - exact H.
    - now rewrite <- app_assoc. }
  assert (Hstart : extends_closed closed s2).
  { exists [[]]. split; [discriminate|exact Hs2]. }
  assert (Hclosed : extends_closed closed s3).
  { pose proof (pinch_run_loop_keeps (extends_closed closed)
                  (check_keeps_closed closed)
                  (fun x y st Hst _ => add_keeps_closed closed x y st Hst)
                  reads s2 Hstart) as Hk.
    rewrite Hloop in Hk. exact Hk. }
  exists closed.
  destruct Hclosed as (rest & Hrest & H3).
  exists rest. split; [|split; [exact Hs2|split; [exact H3|exact Hrest]]].
  subst closed. destruct cur as [|p cur]; cbn [truthy]; [right|left]; exact H.
Qed.

Lemma inactive_frame_starts_new_stroke_witness :
  let pinching := sample_hand (Landmark.mk 0.5 0.5) (Landmark.mk 0.515625 0.5) in
  let open := sample_hand (Landmark.mk 0.5 0.5) (Landmark.mk 0.75 0.5) in
  let before := [mkStrokePoint (1, 1) 10 (255, 0, 0)] in
  let after := [mkStrokePoint (325, 240) 10 (255, 0, 0)] in
  let s1 := set_lines [before] initial_state in
  let s2 := set_lines [before; []] initial_state in
  let s3 := set_lines [before; after] initial_state in
  exists closed rest,
    (lines s1 = closed \/ lines s1 = closed ++ [[]]) /\
    lines s2 = closed ++ [[]] /\
    lines s3 = closed ++ rest /\
    rest <> [].
Proof.
  intros pinching open before after s1 s2 s3.
  refine (inactive_frame_starts_new_stroke
            (sample_frame [open]) [sample_frame [pinching]] s1 s2 s3
            [CvCircle (400, 240) 5 (150, 150, 150) (-1); DataSignal 480 640]
            [DataSignal 480 640] Continue Awaiting eq_refl _ _ _);
    vm_compute; reflexivity.
Defined.

(** C7. A frame processed while drawing is switched off leaves the ledger
    as it is, in both variants and in every state a session reaches by frames
    and commands, whatever the frame shows and however it ends.  In any state
    at all with drawing off, a frame adds no point: it keeps every line and at
    most appends one empty line. *)
Theorem paused_frame_keeps_ledger :
  (forall s r,
      reachable PinchBoard.run_iteration s ->
      draw s = false ->
      lines (final (PinchBoard.run_iteration r s)) = lines s) /\
  (forall s r,
      reachable FingerBoard.run_iteration s ->
      draw s = false ->
      lines (final (FingerBoard.run_iteration r s)) = lines s) /\
  (forall s r,
      draw s = false ->
      lines (final (PinchBoard.run_iteration r s)) = lines s \/
      lines (final (PinchBoard.run_iteration r s)) = lines s ++ [[]]) /\
  (forall s r,
      draw s = false ->
      lines (final (FingerBoard.run_iteration r s)) = lines s \/
      lines (final (FingerBoard.run_iteration r s)) = lines s ++ [[]]).
Proof.
  assert (Hno_add : forall (Q : State -> Prop) x y st,
             draw st = false /\ Q st -> draw st = true ->
             draw (final (Ledger.add_line x y st)) = false /\
             Q (final (Ledger.add_line x y st))).
  { intros Q x y st [Hd _] Ht. congruence. }
  split; [|split; [|split]].
  - intros s r Hreach Hd.
    destruct (reachable_open PinchBoard.run_iteration
                (pinch_run_iteration_keeps paused_ledger_open
                   check_keeps_open add_keeps_open) s Hreach) as [_ Hlast].
    apply (pinch_run_iteration_keeps
             (fun st => draw st = false /\ lines st = lines s)
             (check_keeps_paused (lines s) (Hlast Hd))
             (Hno_add (fun st => lines st = lines s)) r s (conj Hd eq_refl)).
  - intros s r Hreach Hd.
    destruct (reachable_open FingerBoard.run_iteration
                (finger_run_iteration_keeps paused_ledger_open
                   check_keeps_open add_keeps_open) s Hreach) as [_ Hlast].
    apply (finger_run_iteration_keeps
             (fun st => draw st = false /\ lines st = lines s)
             (check_keeps_paused (lines s) (Hlast Hd))
             (Hno_add (fun st => lines st = lines s)) r s (conj Hd eq_refl)).
  - intros s r Hd.
    apply (pinch_run_iteration_keeps
             (fun st => draw st = false
                        /\ (lines st = lines s \/ lines st = lines s ++ [[]]))
             (check_keeps_points (lines s))
             (Hno_add (fun st => lines st = lines s \/ lines st = lines s ++ [[]]))
             r s (conj Hd (or_introl eq_refl))).
  - intros s r Hd.
    apply (finger_run_iteration_keeps
             (fun st => draw st = false
                        /\ (lines st = lines s \/ lines st = lines s ++ [[]]))
             (check_keeps_points (lines s))
             (Hno_add (fun st => lines st = lines s \/ lines st = lines s ++ [[]]))
             r s (conj Hd (or_introl eq_refl))).
Qed.

Lemma paused_frame_keeps_ledger_witness :
  let pinching := sample_hand (Landmark.mk 0.5 0.5) (Landmark.mk 0.515625 0.5) in
  let drawn := final (PinchBoard.run_iteration (sample_frame [pinching]) initial_state) in
  let paused := final (exec_command CmdToggleDraw drawn) in
  draw paused = false /\
  lines paused = [[mkStrokePoint (325, 240) 10 (255, 0, 0)]; []] /\
  lines (final (PinchBoard.run_iteration (sample_frame [pinching]) paused))
  = lines paused.
Proof.
  intros pinching drawn paused.
  split; [vm_compute; reflexivity|]. split; [vm_compute; reflexivity|].
  refine (proj1 paused_frame_keeps_ledger paused (sample_frame [pinching]) _ _).
  - apply reachable_command, reachable_frame, reachable_init.
  - vm_compute. reflexivity.
Defined.

(** ** Further properties of the ledger methods *)

Lemma bind_Raise_inv {A B : Type} (m : M A) (k : A -> M B) s out e s' :
  bind m k s = Raise out e s' ->
  m s = Raise out e s' \/
  exists o1 a s1 o2,
    m s = Ok o1 a s1 /\ k a s1 = Raise o2 e s' /\ out = o1 ++ o2.
Proof.
  unfold bind. destruct (m s) as [o1 a s1|o1 e1 s1].
  - destruct (k a s1) as [o2 b s2|o2 e2 s2] eqn:Hk; [discriminate|].
    intros [= <- <- <-]. right. eauto 8.
  - intros [= <- <- <-]. now left.
Qed.

Lemma quiet_Raise {A : Type} (m : M A) s out e s' :
  readonly m -> silent m -> m s = Raise out e s' -> out = [] /\ s' = s.
Proof.
  intros Hr Hs H. specialize (Hr s). specialize (Hs s).
  rewrite H in Hr, Hs. cbn in Hr, Hs. auto.
Qed.

Lemma check_for_new_line_Raise s out e s' :
  Ledger.check_for_new_line s = Raise out e s' ->
  out = [] /\ s' = s /\ e = IndexError /\ lines s = [].
Proof.
  destruct (lines s) as [|l ls] eqn:Hl using rev_ind.
  - unfold Ledger.check_for_new_line, bind.
    rewrite (current_line_nil s Hl). now intros [= <- <- <-].
  - rewrite (check_for_new_line_snoc _ _ s Hl). discriminate.
Qed.

Lemma add_line_Raise x y s out e s' :
  Ledger.add_line x y s = Raise out e s' ->
  out = [] /\ s' = s /\ e = IndexError /\ lines s = [].
Proof.
  destruct (lines s) as [|l ls] eqn:Hl using rev_ind.
  - unfold Ledger.add_line, bind.
    rewrite (current_line_nil s Hl). now intros [= <- <- <-].
  - rewrite (add_line_snoc _ _ x y s Hl). discriminate.
Qed.

Lemma bind_assoc {A B C : Type} (m : M A) (k : A -> M B) (h : B -> M C) s :
  bind (bind m k) h s = bind m (fun a => bind (k a) h) s.
Proof.
  unfold bind. destruct (m s) as [o1 a s1|]; [|reflexivity].
  destruct (k a s1) as [o2 b s2|]; [|reflexivity].
  destruct (h b s2); now rewrite app_assoc.
Qed.

Lemma bind_ext {A B : Type} (m : M A) (k k' : A -> M B) s :
  (forall a s1, k a s1 = k' a s1) -> bind m k s = bind m k' s.
Proof.
  intros Hk. unfold bind. destruct (m s) as [o1 a s1|]; [|reflexivity].
  now rewrite Hk.
Qed.

Lemma exec_ops_app ops1 ops2 s :
  exec_ops (ops1 ++ ops2) s = bind (exec_ops ops1) (fun _ => exec_ops ops2) s.
Proof.
  unfold exec_ops. revert s. induction ops1 as [|op ops1 IH]; intros s.
  - cbn [app for_each]. now rewrite bind_ret_l.
  - cbn [app for_each]. rewrite bind_assoc. apply bind_ext. intros _ s1. apply IH.
Qed.

Lemma add_lines_snoc (pts : list Point) :
  forall front cur s,
    lines s = front ++ [cur] ->
    exec_ops (map (fun p => OpAddLine (fst p) (snd p)) pts) s =
    Ok [] tt
      (set_lines
         (front ++ [cur ++ map (fun p => entry_of s (fst p) (snd p)) pts]) s).
Proof.
  unfold exec_ops. induction pts as [|p pts IH]; intros front cur s H.
  - cbn. now rewrite app_nil_r, <- H, set_lines_id.
  - cbn [map for_each exec_op].
    rewrite (bind_Ok _ _ _ _ _ _ (add_line_snoc front cur (fst p) (snd p) s H)).
    rewrite (IH front (cur ++ [entry_of s (fst p) (snd p)])
               (set_lines (front ++ [cur ++ [entry_of s (fst p) (snd p)]]) s)
               eq_refl).
    cbn [app map set_lines lines draw run_video_thread settings].
    unfold set_lines, entry_of. cbn. now rewrite <- app_assoc.
Qed.





(** On a ledger under the invariant whose last line is empty, drawing a
    line of one or more points and then pressing undo gives the ledger back
    as it was, whether or not the line was closed by [check_for_new_line]
    in between. *)
Theorem undo_discards_drawn_stroke
    (s : State) (closed : list Stroke) (pts : list Point) :
  lines s = closed ++ [[]] ->
  Forall (fun l => l <> []) closed ->
  pts <> [] ->
  exec_ops (map (fun p => OpAddLine (fst p) (snd p)) pts ++ [OpUndo]) s
  = Ok [] tt s /\
  exec_ops (map (fun p => OpAddLine (fst p) (snd p)) pts
            ++ [OpCheckForNewLine; OpUndo]) s
  = Ok [] tt s.
Proof.
  intros H Hclosed Hpts.
  pose proof (add_lines_snoc pts closed [] s H) as Hadd.
  set (stroke := map (fun p => entry_of s (fst p) (snd p)) pts) in Hadd.
  assert (Hstroke : truthy stroke = true) by (subst stroke; now destruct pts).
  cbn [app] in Hadd.
  set (s1 := set_lines (closed ++ [stroke]) s) in Hadd.
  assert (Hback : set_lines (closed ++ [[]]) s1 = s).
  { change (set_lines (closed ++ [[]]) s = s). now rewrite <- H, set_lines_id. }
  split.
  - rewrite exec_ops_app, (bind_Ok _ _ _ _ _ _ Hadd).
    unfold exec_ops. cbn [for_each exec_op].
    rewrite (bind_ret_r_Ok _ _ _ _ _ _
               (undo_closed closed stroke s1 eq_refl Hclosed)).
    unfold kept_by_undo. now rewrite Hstroke, Hback.
  - rewrite exec_ops_app, (bind_Ok _ _ _ _ _ _ Hadd).
    unfold exec_ops. cbn [for_each exec_op].
    rewrite (bind_Ok _ _ _ _ _ _
               (check_for_new_line_snoc closed stroke s1 eq_refl)).
    rewrite Hstroke.
    assert (Hc : Forall (fun l : Stroke => l <> []) (closed ++ [stroke])).
    { apply Forall_app. split; [exact Hclosed|].
      constructor; [now apply truthy_true|constructor]. }
    rewrite (bind_ret_r_Ok _ _ _ _ _ _
               (undo_closed (closed ++ [stroke]) []
                  (set_lines (closed ++ [stroke; []]) s1)
                  ltac:(cbn; now rewrite <- app_assoc) Hc)).
    unfold kept_by_undo. cbn [truthy]. rewrite length_app. cbn [length].
    replace (length closed + 1 - 1)%nat with (length closed) by lia.
    rewrite take_app_length.
    change (set_lines (closed ++ [[]]) (set_lines (closed ++ [stroke; []]) s1))
      with (set_lines (closed ++ [[]]) s1).
    now rewrite Hback.
Qed.

Lemma undo_discards_drawn_stroke_witness :
  let s := set_lines [[mkStrokePoint (1, 1) 10 (255, 0, 0)]; []] initial_state in
  exec_ops [OpAddLine 5 6; OpAddLine 7 8; OpUndo] s = Ok [] tt s /\
  exec_ops [OpAddLine 5 6; OpAddLine 7 8; OpCheckForNewLine; OpUndo] s
  = Ok [] tt s.
Proof.
  intros s.
  refine (undo_discards_drawn_stroke s [[mkStrokePoint (1, 1) 10 (255, 0, 0)]]
            [(5, 6); (7, 8)] eq_refl _ _).
  - repeat constructor. discriminate.
  - discriminate.
Defined.

(** Changing the line thickness or the line colour returns, keeps the
    ledger, and changes nothing of what [draw_lines] draws: the style of the
    lines already recorded is not touched. *)
Theorem settings_change_is_not_retroactive (s : State) (value : Z) (c : Color) :
  (exists s1,
      Ledger.change_line_thickness value s = Ok [] tt s1 /\
      lines s1 = lines s /\
      line_thickness (settings s1) = value /\
      line_color (settings s1) = line_color (settings s) /\
      output (Ledger.draw_lines s1) = output (Ledger.draw_lines s)) /\
  (exists s1,
      Ledger.change_line_color c s = Ok [] tt s1 /\
      lines s1 = lines s /\
      line_color (settings s1) = c /\
      line_thickness (settings s1) = line_thickness (settings s) /\
      output (Ledger.draw_lines s1) = output (Ledger.draw_lines s)).
Proof.
  split; eexists; (split; [reflexivity|]); repeat split;
    now rewrite !draw_lines_spec.
Qed.

(** ** Further properties of sessions *)

Lemma exec_op_keeps_invariant op :
  preserves (fun s => ledger_invariant (lines s)) (exec_op op).
Proof.
  intros s H. destruct (exec_op_invariant op s H) as (s' & Hop & H').
  now rewrite Hop.
Qed.

Lemma command_keeps_invariant c :
  preserves (fun s => ledger_invariant (lines s)) (exec_command c).
Proof.
  destruct c as [| | |v|col]; cbn [exec_command].
  - intros s H. unfold Ledger.toggle_draw.
    rewrite final_bind. cbn [get]. rewrite final_bind. cbn [put].
    apply (exec_op_keeps_invariant OpCheckForNewLine
             (set_draw (negb (draw s)) s) H).
  - apply (exec_op_keeps_invariant OpUndo).
  - apply (exec_op_keeps_invariant OpClear).
  - intros s H. exact H.
  - intros s H. exact H.
Qed.

Lemma reachable_invariant {A : Type} (iteration : ReadResult -> M A) :
  (forall r, preserves (fun s => ledger_invariant (lines s)) (iteration r)) ->
  forall s, reachable iteration s -> ledger_invariant (lines s).
Proof.
  intros Hiter s Hreach. induction Hreach as [|s r _ IH|s c _ IH].
  - apply ledger_invariant_snoc. exists [], []. split; [reflexivity|constructor].
  - now apply Hiter.
  - now apply command_keeps_invariant.
Qed.

Lemma pinch_reachable_invariant s :
  reachable PinchBoard.run_iteration s -> ledger_invariant (lines s).
Proof.
  apply reachable_invariant. intros r.
  apply pinch_run_iteration_keeps.
  - apply (exec_op_keeps_invariant OpCheckForNewLine).
  - intros x y st Hst _. apply (exec_op_keeps_invariant (OpAddLine x y) st Hst).
Qed.

Lemma finger_reachable_invariant s :
  reachable FingerBoard.run_iteration s -> ledger_invariant (lines s).
Proof.
  apply reachable_invariant. intros r.
  apply finger_run_iteration_keeps.
  - apply (exec_op_keeps_invariant OpCheckForNewLine).
  - intros x y st Hst _. apply (exec_op_keeps_invariant (OpAddLine x y) st Hst).
Qed.


(** In every state a session of either variant reaches, by frames of any
    content and outcome and by the commands of the buttons and the settings
    window, the ledger holds at least one line and only its last line may be
    empty. *)
Theorem session_keeps_ledger_invariant :
  (forall s, reachable PinchBoard.run_iteration s ->
             lines s <> [] /\
             forall (i : nat) (line : Stroke),
               lines s !! i = Some line -> (S i < length (lines s))%nat ->
               line <> []) /\
  (forall s, reachable FingerBoard.run_iteration s ->
             lines s <> [] /\
             forall (i : nat) (line : Stroke),
               lines s !! i = Some line -> (S i < length (lines s))%nat ->
               line <> []).
Proof.
  split; intros s Hreach.
  - exact (pinch_reachable_invariant s Hreach).
  - exact (finger_reachable_invariant s Hreach).
Qed.

Lemma session_keeps_ledger_invariant_witness :
  let pinching := sample_hand (Landmark.mk 0.5 0.5) (Landmark.mk 0.515625 0.5) in
  let s := final (exec_command CmdUndo
                    (final (PinchBoard.run_iteration (sample_frame [pinching])
                              initial_state))) in
  lines s <> [] /\
  forall (i : nat) (line : Stroke),
    lines s !! i = Some line -> (S i < length (lines s))%nat -> line <> [].
Proof.
  intros pinching s.
  refine (proj1 session_keeps_ledger_invariant s _).
  apply reachable_command, reachable_frame, reachable_init.
Defined.



(** ** Further properties of the frames of the pinch variant *)


Lemma check_if_pinched_Ok r img l hs s o b s1 :
  image r = Some img ->
  multi_hand_landmarks img = l :: hs ->
  PinchBoard.check_if_pinched l s = Ok o b s1 ->
  b = pinch_active r /\
  (b = true -> s1 = s) /\
  (b = false -> Ledger.check_for_new_line s = Ok [] tt s1).
Proof.
  intros Himg Hhands Hb. unfold pinch_active. rewrite Himg, Hhands.
  rewrite check_if_pinched_cases in Hb.
  destruct (getitem l PinchBoard.index_finger_tip) as [ift|]; [|discriminate].
  destruct (getitem l PinchBoard.thumb_tip) as [tt_|]; [|discriminate].
  destruct (PinchBoard.within_tolerance ift tt_).
  - injection Hb as <- <- <-.
    split; [reflexivity|]. split; [reflexivity|discriminate].
  - apply bind_ret_r_inv in Hb as (-> & [] & Hcheck).
    pose proof (silent_Ok _ _ _ _ _ silent_check_for_new_line Hcheck) as ->.
    split; [reflexivity|]. split; [discriminate|]. intros _. exact Hcheck.
Qed.


Lemma frame_keeps_other_fields s0 :
  preserves (fun st => set_lines (lines s0) st = s0) Ledger.check_for_new_line /\
  (forall x y st,
      set_lines (lines s0) st = s0 -> draw st = true ->
      set_lines (lines s0) (final (Ledger.add_line x y st)) = s0).
Proof.
  split.
  - intros st H. rewrite check_for_new_line_final.
    destruct (last (lines st)) as [cur|]; [destruct (truthy cur)|]; exact H.
  - intros x y st H _. rewrite add_line_final.
    destruct (last (lines st)); exact H.
Qed.

Lemma only_lines_differ s0 st :
  set_lines (lines s0) st = s0 -> st = set_lines (lines st) s0.
Proof. intros <-. now destruct st. Qed.

Lemma pinch_frame_only_lines r s :
  final (PinchBoard.run_iteration r s)
  = set_lines (lines (final (PinchBoard.run_iteration r s))) s.
Proof.
  apply only_lines_differ. destruct (frame_keeps_other_fields s) as [Hc Ha].
  apply (pinch_run_iteration_keeps _ Hc Ha r s). apply set_lines_id.
Qed.

Lemma finger_frame_only_lines r s :
  final (FingerBoard.run_iteration r s)
  = set_lines (lines (final (FingerBoard.run_iteration r s))) s.
Proof.
  apply only_lines_differ. destruct (frame_keeps_other_fields s) as [Hc Ha].
  apply (finger_run_iteration_keeps _ Hc Ha r s). apply set_lines_id.
Qed.


(** What a frame of the pinch variant that was read and processed to the
    end has done to the fields.  Without a pinch (or without a hand) it has
    run [check_for_new_line] and nothing else; with a pinch and drawing off
    it has changed nothing; with a pinch and drawing on it has run
    [add_line] once, at the point [get_coordinates] computed for the first
    hand. *)
Theorem pinch_frame_effect (r : ReadResult) (s s' : State)
    (out : list Event) (c : LoopControl) :
  success r = true ->
  PinchBoard.run_iteration r s = Ok out c s' ->
  (pinch_active r = false -> Ledger.check_for_new_line s = Ok [] tt s') /\
  (pinch_active r = true -> draw s = false -> s' = s) /\
  (pinch_active r = true -> draw s = true ->
   exists img l hs x y,
     image r = Some img /\
     multi_hand_landmarks img = l :: hs /\
     PinchBoard.get_coordinates l (image_width img) (image_height img) s
     = Ok [] (x, y) s /\
     Ledger.add_line x y s = Ok [] tt s').
Proof.
  intros Hsucc H.
  split; [intros Hact; exact (pinch_inactive_frame_checks r s out c s' Hsucc Hact H)|].
  destruct (image r) as [img|] eqn:Himg.
  2:{ unfold pinch_active. rewrite Himg. split; intros; discriminate. }
  destruct (multi_hand_landmarks img) as [|l hs] eqn:Hhands.
  { unfold pinch_active. rewrite Himg, Hhands. split; intros; discriminate. }
  destruct (pinch_frame_with_hand r img l hs s out c s' Hsucc Himg Hhands H)
    as ([x y] & b & s1 & Hp & Hb & Hadd & _).
  destruct (check_if_pinched_Ok r img l hs s [] b s1 Himg Hhands Hb)
    as (-> & Hsame & _).
  split; intros Hact; rewrite Hact in Hadd; specialize (Hsame Hact);
    subst s1; intros Hdraw; rewrite Hdraw in Hadd; cbn [andb] in Hadd.
  - now injection Hadd.
  - exists img, l, hs, x, y. auto.
Qed.

Lemma pinch_frame_effect_witness :
  let pinching := sample_hand (Landmark.mk 0.5 0.5) (Landmark.mk 0.515625 0.5) in
  exists img l hs x y,
    image (sample_frame [pinching]) = Some img /\
    multi_hand_landmarks img = l :: hs /\
    PinchBoard.get_coordinates l (image_width img) (image_height img)
      initial_state = Ok [] (x, y) initial_state /\
    Ledger.add_line x y initial_state
    = Ok [] tt (set_lines [[mkStrokePoint (325, 240) 10 (255, 0, 0)]]
                  initial_state).
Proof.
  intros pinching.
  refine (proj2 (proj2 (pinch_frame_effect (sample_frame [pinching])
                          initial_state _ [DataSignal 480 640] Continue
                          eq_refl _)) _ eq_refl);
    vm_compute; reflexivity.
Defined.

(** What a frame of the pinch variant that was read and processed to the
    end has sent out: the segments [draw_lines] draws for the ledger as the
    frame leaves it (a point appended in this frame is drawn in this frame),
    then at most one indicator, of radius half the line thickness, in grey
    and filled, then exactly one data signal with the height and width of
    the image; the loop goes on. *)
Theorem pinch_frame_output (r : ReadResult) (s s' : State)
    (out : list Event) (c : LoopControl) :
  success r = true ->
  PinchBoard.run_iteration r s = Ok out c s' ->
  exists img segs,
    image r = Some img /\
    c = Continue /\
    Ledger.draw_lines s' = Ok segs tt s' /\
    (out = segs ++ [DataSignal (image_height img) (image_width img)] \/
     exists p,
       out = segs
             ++ [CvCircle p (Z.quot (line_thickness (settings s)) 2)
                   (150, 150, 150) (-1);
                 DataSignal (image_height img) (image_width img)]).
Proof.
  intros Hsucc H.
  assert (Hsettings : settings s' = settings s).
  { pose proof (pinch_frame_only_lines r s) as Hk. rewrite H in Hk.
    cbn [final] in Hk. now rewrite Hk. }
  destruct (image r) as [img|] eqn:Himg.
  2:{ unfold PinchBoard.run_iteration in H. rewrite Hsucc, Himg in H.
      discriminate H. }
  exists img, (concat (map segments_of (lines s'))).
  split; [reflexivity|].
  destruct (multi_hand_landmarks img) as [|l hs] eqn:Hhands.
  - destruct (pinch_frame_without_hand r img s out c s' Hsucc Himg Hhands H)
      as (_ & -> & ->).
    split; [reflexivity|]. split; [apply draw_lines_spec|now left].
  - destruct (pinch_frame_with_hand r img l hs s out c s' Hsucc Himg Hhands H)
      as (p & b & s1 & _ & _ & _ & -> & ->).
    split; [reflexivity|]. split; [apply draw_lines_spec|].
    rewrite Hsettings. destruct (draw s' && negb b); [right; now exists p|now left].
Qed.

Lemma pinch_frame_output_witness :
  let open := sample_hand (Landmark.mk 0.5 0.5) (Landmark.mk 0.75 0.5) in
  let out := [CvCircle (400, 240) 5 (150, 150, 150) (-1); DataSignal 480 640] in
  exists img segs,
    image (sample_frame [open]) = Some img /\
    Continue = Continue /\
    Ledger.draw_lines initial_state = Ok segs tt initial_state /\
    (out = segs ++ [DataSignal (image_height img) (image_width img)] \/
     exists p,
       out = segs
             ++ [CvCircle p (Z.quot (line_thickness (settings initial_state)) 2)
                   (150, 150, 150) (-1);
                 DataSignal (image_height img) (image_width img)]).
Proof.
  intros open out.
  refine (pinch_frame_output (sample_frame [open]) initial_state initial_state
            out Continue eq_refl _).
  vm_compute. reflexivity.
Defined.





(** ** Further properties of the frames of the finger variant *)

Lemma finger_up_loop_Ok l rest s o up s1 :
  FingerBoard.finger_up_loop l rest s = Ok o up s1 ->
  o = [] /\
  (up = true -> s1 = s) /\
  (up = false -> Ledger.check_for_new_line s = Ok [] tt s1).
Proof.
  induction rest as [|lm rest IH]; cbn [FingerBoard.finger_up_loop].
  - intros [= <- <- <-]. split; [reflexivity|]. split; [reflexivity|discriminate].
  - destruct (getitem l FingerBoard.index_finger_tip) as [tip|];
      cbn [lift_option]; [|discriminate].
    rewrite bind_ret_l.
    destruct (PrimFloat.leb (Landmark.y tip) (Landmark.y lm)); [exact IH|].
    intros H. apply bind_ret_r_inv in H as (-> & [] & Hcheck).
    pose proof (silent_Ok _ _ _ _ _ silent_check_for_new_line Hcheck) as ->.
    split; [reflexivity|]. split; [discriminate|]. intros _. exact Hcheck.
Qed.

Lemma finger_up_loop_Raise l rest s out e s' :
  FingerBoard.finger_up_loop l rest s = Raise out e s' ->
  out = [] /\ s' = s /\ e = IndexError /\
  (getitem l FingerBoard.index_finger_tip = None \/ lines s = []).
Proof.
  induction rest as [|lm rest IH]; cbn [FingerBoard.finger_up_loop];
    [discriminate|].
  destruct (getitem l FingerBoard.index_finger_tip) as [tip|];
    cbn [lift_option].
  - rewrite bind_ret_l.
    destruct (PrimFloat.leb (Landmark.y tip) (Landmark.y lm)).
    + intros H. destruct (IH H) as (-> & -> & -> & [Hnone|Hnil]);
        [discriminate Hnone|auto].
    + intros H.
      apply bind_Raise_inv in H as [H|(o1 & a & s1 & o2 & _ & Hret & _)];
        [|discriminate Hret].
      apply check_for_new_line_Raise in H as (-> & -> & -> & Hnil). auto.
  - intros [= <- <- <-]. auto.
Qed.

Lemma finger_frame_tail (gesture : option Point) (succ : bool) h w s :
  bind Ledger.draw_lines (fun _ =>
    bind
      match gesture with
      | Some p => FingerBoard.draw_circle (fst p) (snd p)
      | None => ret tt
      end
      (fun _ => if succ then FingerBoard.emit_signal h w else ret tt)) s
  = Ok (concat (map segments_of (lines s))
        ++ match gesture with
           | Some p => [CvCircle p 50 (reversed (line_color (settings s))) 10]
           | None => []
           end
        ++ (if succ then [DataSignal h w] else [])) tt s.
Proof.
  rewrite (bind_Ok _ _ _ _ _ _ (draw_lines_spec s)).
  destruct gesture as [[x y]|], succ; reflexivity.
Qed.

Lemma finger_frame_Ok r img s out u s' :
  image r = Some img ->
  FingerBoard.run_iteration r s = Ok out u s' ->
  exists gesture : option Point,
    out = concat (map segments_of (lines s'))
          ++ match gesture with
             | Some p => [CvCircle p 50 (reversed (line_color (settings s'))) 10]
             | None => []
             end
          ++ (if success r
              then [DataSignal (image_height img) (image_width img)] else []) /\
    match multi_hand_landmarks img with
    | [] => gesture = None /\ Ledger.check_for_new_line s = Ok [] tt s'
    | l :: _ =>
        exists up s1,
          FingerBoard.check_if_index_finger_is_up l s = Ok [] up s1 /\
          if up then
            s1 = s /\
            exists p,
              gesture = Some p /\
              FingerBoard.get_coordinates l (image_width img) (image_height img) s
              = Ok [] p s /\
              (if draw s then Ledger.add_line (fst p) (snd p) s else Ok [] tt s)
              = Ok [] tt s'
          else
            gesture = None /\ s' = s1 /\
            Ledger.check_for_new_line s = Ok [] tt s'
    end.
Proof.
  intros Himg H. unfold FingerBoard.run_iteration in H.
  rewrite Himg in H. cbn [lift_option] in H. rewrite bind_ret_l in H.
  apply bind_Ok_inv in H as (og & gesture & sg & ot & Hg & Ht & ->).
  rewrite finger_frame_tail in Ht. injection Ht as <- _ <-.
  exists gesture.
  destruct (multi_hand_landmarks img) as [|l hs].
  - apply bind_ret_r_inv in Hg as (-> & [] & Hcheck).
    pose proof (silent_Ok _ _ _ _ _ silent_check_for_new_line Hcheck) as ->.
    auto.
  - apply bind_Ok_inv in Hg as (o1 & up & s1 & o2 & Hup & Hg & ->).
    destruct (finger_up_loop_Ok _ _ _ _ _ _ Hup) as (-> & Htrue & Hfalse).
    destruct up.
    + specialize (Htrue eq_refl). subst s1.
      apply bind_Ok_inv in Hg as (o3 & p & s2 & o4 & Hp & Hg & ->).
      pose proof (silent_Ok _ _ _ _ _ (silent_finger_get_coordinates _ _ _) Hp)
        as ->.
      pose proof (readonly_Ok _ _ _ _ _ (readonly_finger_get_coordinates _ _ _) Hp)
        as ->.
      rewrite bind_get in Hg.
      apply bind_ret_r_inv in Hg as (-> & [] & Hadd).
      assert (o4 = []) as ->.
      { destruct (draw s).
        - exact (silent_Ok _ _ _ _ _ (silent_add_line _ _) Hadd).
        - now injection Hadd as <- _. }
      split; [reflexivity|]. exists true, s. split; [exact Hup|].
      split; [reflexivity|]. exists p.
      split; [reflexivity|]. split; [exact Hp|].
      destruct (draw s); exact Hadd.
    + injection Hg as <- <- <-. specialize (Hfalse eq_refl).
      split; [now rewrite app_nil_r|]. exists false, s1. auto.
Qed.

Lemma finger_frame_Raise r s out e s' :
  FingerBoard.run_iteration r s = Raise out e s' ->
  out = [] /\ s' = s /\
  ((image r = None /\ e = AttributeError) \/
   (exists img l hs,
       image r = Some img /\ multi_hand_landmarks img = l :: hs /\
       FingerBoard.get_coordinates l (image_width img) (image_height img) s
       = Raise [] e s) \/
   (lines s = [] /\ e = IndexError)).
Proof.
  intros H. unfold FingerBoard.run_iteration in H.
  destruct (image r) as [img|]; cbn [lift_option] in H.
  2:{ injection H as <- <- <-. auto 6. }
  rewrite bind_ret_l in H.
  apply bind_Raise_inv in H as [H|(o1 & g & s1 & o2 & _ & Ht & _)].
  2:{ rewrite finger_frame_tail in Ht. discriminate Ht. }
  destruct (multi_hand_landmarks img) as [|l hs] eqn:Hhands.
  - apply bind_Raise_inv in H as [H|(o1 & a & s1 & o2 & _ & Hret & _)];
      [|discriminate Hret].
    apply check_for_new_line_Raise in H as (-> & -> & -> & Hnil). auto 8.
  - apply bind_Raise_inv in H as [H|(o1 & up & s1 & o2 & Hup & H & ->)].
    { apply finger_up_loop_Raise in H as (-> & -> & -> & [Hnone|Hnil]);
        [|auto 8].
      split; [reflexivity|]. split; [reflexivity|]. right. left.
      exists img, l, hs. split; [reflexivity|]. split; [exact Hhands|].
      unfold FingerBoard.get_coordinates. now rewrite Hnone. }
    destruct (finger_up_loop_Ok _ _ _ _ _ _ Hup) as (-> & Htrue & _).
    destruct up; [|discriminate H]. specialize (Htrue eq_refl). subst s1.
    apply bind_Raise_inv in H as [H|(o3 & p & s2 & o4 & Hp & H & ->)].
    { destruct (quiet_Raise _ _ _ _ _ (readonly_finger_get_coordinates _ _ _)
                  (silent_finger_get_coordinates _ _ _) H) as [-> ->].
      split; [reflexivity|]. split; [reflexivity|]. right. left. eauto 8. }
    pose proof (silent_Ok _ _ _ _ _ (silent_finger_get_coordinates _ _ _) Hp) as ->.
    pose proof (readonly_Ok _ _ _ _ _ (readonly_finger_get_coordinates _ _ _) Hp)
      as ->.
    rewrite bind_get in H.
    apply bind_Raise_inv in H as [H|(o5 & a & s5 & o6 & _ & Hret & _)];
      [|discriminate Hret].
    destruct (draw s); [|discriminate H].
    apply add_line_Raise in H as (-> & -> & -> & Hnil). auto 8.
Qed.

(** What a frame of the finger variant with a hand in it, processed to the
    end, has done.  With the finger not up it has run [check_for_new_line]
    and nothing else.  With the finger up it has computed the fingertip's
    point, has run [add_line] there once if drawing is on and changed
    nothing if drawing is off, and has drawn its circle around that point in
    the current line colour. *)
Theorem finger_frame_effect (r : ReadResult) (img : Image)
    (l : list Landmark.t) (hs : list (list Landmark.t)) (s s' : State)
    (out : list Event) (u : unit) :
  image r = Some img ->
  multi_hand_landmarks img = l :: hs ->
  FingerBoard.run_iteration r s = Ok out u s' ->
  exists up s1,
    FingerBoard.check_if_index_finger_is_up l s = Ok [] up s1 /\
    (up = false -> Ledger.check_for_new_line s = Ok [] tt s') /\
    (up = true ->
     exists x y,
       FingerBoard.get_coordinates l (image_width img) (image_height img) s
       = Ok [] (x, y) s /\
       (draw s = true -> Ledger.add_line x y s = Ok [] tt s') /\
       (draw s = false -> s' = s) /\
       CvCircle (x, y) 50 (reversed (line_color (settings s))) 10 ∈ out).
Proof.
  intros Himg Hhands H.
  assert (Hsettings : settings s' = settings s).
  { pose proof (finger_frame_only_lines r s) as Hk. rewrite H in Hk.
    cbn [final] in Hk. now rewrite Hk. }
  destruct (finger_frame_Ok r img s out u s' Himg H) as (gesture & -> & Hg).
  rewrite Hhands in Hg. destruct Hg as (up & s1 & Hup & Hg).
  exists up, s1. split; [exact Hup|].
  destruct up.
  - split; [discriminate|]. intros _.
    destruct Hg as (-> & [x y] & -> & Hp & Hadd).
    exists x, y. split; [exact Hp|].
    split; [|split].
    + intros Hdraw. now rewrite Hdraw in Hadd.
    + intros Hdraw. rewrite Hdraw in Hadd. now injection Hadd.
    + rewrite Hsettings. apply elem_of_app. right. apply elem_of_app. left.
      apply list_elem_of_singleton. reflexivity.
  - destruct Hg as (_ & _ & Hcheck). split; [intros _; exact Hcheck|discriminate].
Qed.

Lemma finger_frame_effect_witness :
  let pointing := sample_hand (Landmark.mk 0.5 0.5) (Landmark.mk 0.75 0.625) in
  exists up s1,
    FingerBoard.check_if_index_finger_is_up pointing initial_state
    = Ok [] up s1 /\
    (up = false ->
     Ledger.check_for_new_line initial_state
     = Ok [] tt (set_lines [[mkStrokePoint (320, 240) 10 (255, 0, 0)]]
                   initial_state)) /\
    (up = true ->
     exists x y,
       FingerBoard.get_coordinates pointing 640 480 initial_state
       = Ok [] (x, y) initial_state /\
       (draw initial_state = true ->
        Ledger.add_line x y initial_state
        = Ok [] tt (set_lines [[mkStrokePoint (320, 240) 10 (255, 0, 0)]]
                      initial_state)) /\
       (draw initial_state = false ->
        set_lines [[mkStrokePoint (320, 240) 10 (255, 0, 0)]] initial_state
        = initial_state) /\
       CvCircle (x, y) 50 (reversed (line_color (settings initial_state))) 10
       ∈ [CvCircle (320, 240) 50 (0, 0, 255) 10; DataSignal 480 640]).
Proof.
  intros pointing.
  refine (finger_frame_effect (sample_frame [pointing]) _ pointing []
            initial_state _ _ tt eq_refl eq_refl _).
  vm_compute. reflexivity.
Defined.



(** A frame of the finger variant that ends in an exception has sent
    nothing out and has changed no field, and the exception has one of three
    causes: the read delivered no image ([AttributeError]);
    [get_coordinates] raises on the first hand; or the ledger held no line
    ([IndexError]). *)
Theorem finger_frame_exceptions (r : ReadResult) (s s' : State)
    (out : list Event) (e : Exn) :
  FingerBoard.run_iteration r s = Raise out e s' ->
  out = [] /\ s' = s /\
  ((image r = None /\ e = AttributeError) \/
   (exists img l hs,
       image r = Some img /\ multi_hand_landmarks img = l :: hs /\
       FingerBoard.get_coordinates l (image_width img) (image_height img) s
       = Raise [] e s) \/
   (lines s = [] /\ e = IndexError)).
Proof. apply finger_frame_Raise. Qed.

Lemma finger_frame_exceptions_witness :
  let r := {| success := false; image := None |} in
  @nil Event = [] /\ initial_state = initial_state /\
  ((image r = None /\ AttributeError = AttributeError) \/
   (exists img l hs,
       image r = Some img /\ multi_hand_landmarks img = l :: hs /\
       FingerBoard.get_coordinates l (image_width img) (image_height img)
         initial_state = Raise [] AttributeError initial_state) \/
   (lines initial_state = [] /\ AttributeError = IndexError)).
Proof.
  intros r.
  exact (finger_frame_exceptions r initial_state initial_state [] AttributeError
           eq_refl).
Defined.


(** ** Further properties of gestures and coordinates *)




(** For a hand that has both fingertips, and with a ledger that holds a
    line, [check_if_pinched] returns without an outside call; it returns
    [True] exactly when the two fingertips are closer than the tolerance on
    both axes, and then changes nothing; when it returns [False] it has run
    [check_for_new_line], and the ledger ends in an empty line. *)
Theorem check_if_pinched_effect
    (l : list Landmark.t) (ift tt_ : Landmark.t) (s : State) :
  getitem l PinchBoard.index_finger_tip = Some ift ->
  getitem l PinchBoard.thumb_tip = Some tt_ ->
  lines s <> [] ->
  exists b s',
    PinchBoard.check_if_pinched l s = Ok [] b s' /\
    (b = true <->
     PrimFloat.ltb
       (PrimFloat.abs (PrimFloat.sub (Landmark.x ift) (Landmark.x tt_)))
       PinchBoard.pinch_tolerance = true /\
     PrimFloat.ltb
       (PrimFloat.abs (PrimFloat.sub (Landmark.y ift) (Landmark.y tt_)))
       PinchBoard.pinch_tolerance = true) /\
    (b = true -> s' = s) /\
    (b = false ->
     Ledger.check_for_new_line s = Ok [] tt s' /\ last (lines s') = Some []).
Proof.
  intros Hift Htt Hne. rewrite check_if_pinched_cases, Hift, Htt.
  unfold PinchBoard.within_tolerance.
  destruct (PrimFloat.ltb
              (PrimFloat.abs (PrimFloat.sub (Landmark.x ift) (Landmark.x tt_)))
              PinchBoard.pinch_tolerance) eqn:Hx;
    [destruct (PrimFloat.ltb
                 (PrimFloat.abs (PrimFloat.sub (Landmark.y ift) (Landmark.y tt_)))
                 PinchBoard.pinch_tolerance) eqn:Hy|]; cbn [andb].
  1:{ exists true, s. split; [reflexivity|]. split; [split; auto|].
      split; [reflexivity|discriminate]. }
  all: destruct (snoc_inv _ Hne) as (front & cur & H);
    pose proof (check_for_new_line_snoc front cur s H) as Hcheck;
    pose proof (check_for_new_line_opens s Hne) as (_ & Hlast & _);
    rewrite Hcheck in Hlast; cbn [final] in Hlast;
    rewrite (bind_ret_r_Ok _ _ _ _ _ _ Hcheck);
    eexists false, _; (split; [reflexivity|]);
    (split; [split; [discriminate|intros [? ?]; discriminate]|]);
    (split; [discriminate|]); intros _; split; [exact Hcheck|exact Hlast].
Qed.

Lemma check_if_pinched_effect_witness :
  let open := sample_hand (Landmark.mk 0.5 0.5) (Landmark.mk 0.75 0.5) in
  let s := set_lines [[mkStrokePoint (1, 1) 10 (255, 0, 0)]] initial_state in
  exists b s',
    PinchBoard.check_if_pinched open s = Ok [] b s' /\
    (b = true <->
     PrimFloat.ltb (PrimFloat.abs (PrimFloat.sub 0.5 0.75))
       PinchBoard.pinch_tolerance = true /\
     PrimFloat.ltb (PrimFloat.abs (PrimFloat.sub 0.5 0.5))
       PinchBoard.pinch_tolerance = true) /\
    (b = true -> s' = s) /\
    (b = false ->
     Ledger.check_for_new_line s = Ok [] tt s' /\ last (lines s') = Some []).
Proof.
  intros open s.
  refine (check_if_pinched_effect open (Landmark.mk 0.5 0.5)
            (Landmark.mk 0.75 0.5) s eq_refl eq_refl _).
  discriminate.
Defined.

(** ** Further properties of the loops *)







Lemma pinch_run_loop_after_failed_read pre bad rest :
  success bad = false ->
  forall s,
    PinchBoard.run_loop (pre ++ bad :: rest) s
    = PinchBoard.run_loop (pre ++ [bad]) s.
Proof.
  intros Hbad. induction pre as [|r pre IH]; intros s;
    cbn [app PinchBoard.run_loop]; rewrite !bind_get;
    destruct (run_video_thread s); try reflexivity.
  - unfold PinchBoard.run_iteration. rewrite Hbad. reflexivity.
  - apply bind_ext. intros [|] s1; [apply IH|reflexivity].
Qed.

(** Once a read has failed, the loop of the pinch variant takes no further
    frame: what follows the failed read in the camera stream has no influence
    on what [run] sends out, returns or leaves behind. *)
Theorem pinch_run_ignores_frames_after_failed_read
    (pre rest : list ReadResult) (bad : ReadResult) (s : State) :
  success bad = false ->
  PinchBoard.run (pre ++ bad :: rest) s = PinchBoard.run (pre ++ [bad]) s.
Proof.
  intros Hbad. unfold PinchBoard.run, bind.
  now rewrite (pinch_run_loop_after_failed_read pre bad rest Hbad s).
Qed.

Lemma pinch_run_ignores_frames_after_failed_read_witness :
  let pinching := sample_hand (Landmark.mk 0.5 0.5) (Landmark.mk 0.515625 0.5) in
  let bad := {| success := false; image := None |} in
  PinchBoard.run ([sample_frame [pinching]] ++ bad :: [sample_frame [pinching]])
    initial_state
  = PinchBoard.run ([sample_frame [pinching]] ++ [bad]) initial_state.
Proof.
  intros pinching bad.
  exact (pinch_run_ignores_frames_after_failed_read [sample_frame [pinching]]
           [sample_frame [pinching]] bad initial_state eq_refl).
Defined.






(** On a ledger that holds a line, [check_for_new_line] run twice in a row
    does what one run does: the second run finds the last line empty and
    leaves everything as it is. *)
Theorem check_for_new_line_idempotent (s : State) :
  lines s <> [] ->
  bind Ledger.check_for_new_line (fun _ => Ledger.check_for_new_line) s
  = Ledger.check_for_new_line s.
Proof.
  intros Hne. destruct (snoc_inv _ Hne) as (front & cur & H).
  pose proof (check_for_new_line_snoc front cur s H) as Hcheck.
  rewrite (bind_Ok _ _ _ _ _ _ Hcheck), Hcheck.
  destruct cur as [|p cur]; cbn [truthy].
  - now rewrite (check_for_new_line_snoc front [] (set_lines (lines s) s) H).
  - now rewrite (check_for_new_line_snoc (front ++ [p :: cur]) []
                   (set_lines (front ++ [p :: cur; []]) s)
                   ltac:(cbn; now rewrite <- app_assoc)).
Qed.

Lemma check_for_new_line_idempotent_witness :
  let s := set_lines [[mkStrokePoint (1, 1) 10 (255, 0, 0)]] initial_state in
  bind Ledger.check_for_new_line (fun _ => Ledger.check_for_new_line) s
  = Ledger.check_for_new_line s.
Proof.
  intros s. refine (check_for_new_line_idempotent s _). discriminate.
Defined.
